(** * timezone-analytics: the server's scoring and request pipeline

    A shallow embedding of [server/index.js]: the timezone scorer
    [analyzeHourlyCounts], the histogram accumulator
    [accumulateHoursFromActivity], the cache key and the address worker pool
    of the [POST /api/timezone] handler.

    Conventions of the embedding.
    - Histogram buckets are JS numbers that hold integers (they are built by
      [+ 1] from [0]); they are modelled as [Z].  Sums of such counts stay far
      below 2^53, where double arithmetic on integers is exact.
    - [bestScore / total] is a quotient of two such integers; it is modelled as
      an exact rational.  The only uses of the quotient are the comparison
      with [0.5] and reading it back, and for integers below 2^53 the rounded
      quotient is above [0.5] exactly when the exact one is.
    - [undefined] and [NaN] are written out where the code can produce them:
      an array read out of range is [None], a sum with it is [None] (NaN).
    - Arrays are values ([list]); where the code sorts in place, a store of
      arrays indexed by references is used ([analyzeHourlyCounts_store]).
    - Strings are ASCII strings; [toLowerCase] maps [A-Z] to [a-z]. *)

From Stdlib Require Import ZArith QArith Lia Ascii.
From stdpp Require Import gmap strings list sorting pretty.

Open Scope Z_scope.

(** ** JS values used by the scorer *)

(** [bestScore]: [-Infinity] or an integer. *)
Inductive score :=
| NegInfinity
| Score (z : Z).

(** The result of [bestScore / total], or the literal [0]. *)
Inductive number :=
| MinusInfinity
| PlusInfinity
| Rat (q : Q).

(** [daySum > bestScore], for a [daySum] that is not NaN. *)
Definition score_gt (daySum : Z) (s : score) : bool :=
  match s with
  | NegInfinity => true
  | Score b => daySum >? b
  end.

(** [bestScore / total] for [total <> 0]. *)
Definition js_div (s : score) (total : Z) : number :=
  match s with
  | Score z => Rat (inject_Z z / inject_Z total)
  | NegInfinity => if 0 <? total then MinusInfinity else PlusInfinity
  end.

(** [x > 0.5] *)
Definition gt_half (x : number) : bool :=
  match x with
  | MinusInfinity => false
  | PlusInfinity => true
  | Rat q => negb (Qle_bool q (1 # 2))
  end.

(** ** Array.prototype.sort

    [sort(cmp)] orders [a] before [b] when [cmp(a, b) <= 0].  For a
    comparator that is a total order the result is the one ascending
    arrangement of the elements, whatever algorithm the engine runs. *)

Definition before {A} (cmp : A → A → Z) : relation A := λ x y, cmp x y ≤ 0.

#[global] Instance before_dec {A} (cmp : A → A → Z) : RelDecision (before cmp).
Proof. intros x y. unfold before. apply _. Defined.

Definition Array_sort {A} (cmp : A → A → Z) (a : list A) : list A :=
  merge_sort (before cmp) a.

(** ** Offset → zone table *)

Definition tzExamples : gmap string string :=
  list_to_map
    [("-12", "Etc/GMT+12"); ("-11", "Pacific/Pago_Pago"); ("-10", "Pacific/Honolulu");
     ("-9", "America/Anchorage"); ("-8", "America/Los_Angeles"); ("-7", "America/Denver");
     ("-6", "America/Chicago"); ("-5", "America/New_York"); ("-4", "America/Halifax");
     ("-3", "America/Sao_Paulo"); ("-2", "Atlantic/South_Georgia"); ("-1", "Atlantic/Azores");
     ("0", "Etc/UTC"); ("1", "Europe/Berlin"); ("2", "Europe/Kaliningrad"); ("3", "Europe/Moscow");
     ("4", "Asia/Dubai"); ("5", "Asia/Karachi"); ("6", "Asia/Dhaka"); ("7", "Asia/Bangkok");
     ("8", "Asia/Shanghai"); ("9", "Asia/Tokyo"); ("10", "Australia/Sydney"); ("11", "Pacific/Noumea");
     ("12", "Pacific/Auckland"); ("13", "Pacific/Tongatapu"); ("14", "Pacific/Kiritimati")]%string.

(** [String(offset)] for an integer: its decimal notation. *)
Definition String_of_Z (z : Z) : string := pretty z.

(** [tzExamples[String(offset)] || 'Etc/UTC'] *)
Definition exampleTz (offset : Z) : string :=
  match tzExamples !! String_of_Z offset with
  | Some EmptyString | None => "Etc/UTC"
  | Some s => s
  end.

(** ** The scorer *)

Record result := {
  utc_offset_hours : Z;
  utc_label : string;
  iana_tz_example : string;
  median : option Z;              (* [None]: undefined, on an empty array *)
  ratio : number;
  bars_high_over_mult : nat;
  passes_rule : bool
}.

(** [counts.reduce((a, b) => a + b, 0)] *)
Definition reduce_add (counts : list Z) : Z :=
  fold_left (λ a b, a + b) counts 0.

(** [(i + offset + 24) % 24]; [%] is the truncated remainder. *)
Definition localHour (i : nat) (offset : Z) : Z :=
  Z.rem (Z.of_nat i + offset + 24) 24.

(** One turn of the inner loop.  [None] is NaN: a read past the end of
    [counts] is undefined, and NaN stays NaN. *)
Definition daySum_step (counts : list Z) (offset : Z) (daySum : option Z) (i : nat)
  : option Z :=
  if (8 <=? localHour i offset) && (localHour i offset <? 18) then
    match daySum, counts !! i with
    | Some d, Some c => Some (d + c)
    | _, _ => None
    end
  else daySum.

(** [for (let i = 0; i < 24; i++) ...] from [daySum = 0]. *)
Definition daySum (counts : list Z) (offset : Z) : option Z :=
  fold_left (daySum_step counts offset) (seq 0 24) (Some 0).

Record best := { bestOffset : Z; bestScore : score }.

(** One turn of the outer loop; [NaN > bestScore] is false. *)
Definition best_step (counts : list Z) (b : best) (offset : Z) : best :=
  match daySum counts offset with
  | Some d =>
      if score_gt d (bestScore b)
      then {| bestOffset := offset; bestScore := Score d |}
      else b
  | None => b
  end.

(** [for (let offset = -12; offset <= 14; offset++)] *)
Definition offsets : list Z := seqZ (-12) 27.

Definition best_loop (counts : list Z) : best :=
  fold_left (best_step counts) offsets {| bestOffset := 0; bestScore := NegInfinity |}.

(** [sorted[Math.floor(sorted.length / 2)]] *)
Definition median_of (sorted : list Z) : option Z :=
  sorted !! (length sorted / 2)%nat.

(** [counts.filter((c) => c >= median * 3).length]; with an undefined
    median the bound is NaN and no bucket passes. *)
Definition highBars_of (counts : list Z) (median : option Z) : nat :=
  match median with
  | Some m => length (List.filter (λ c, c >=? m * 3) counts)
  | None => 0%nat
  end.

(** [`UTC${bestOffset >= 0 ? '+' : ''}${bestOffset}`] *)
Definition utc_label_of (bestOffset : Z) : string :=
  "UTC" +:+ (if bestOffset >=? 0 then "+" else "") +:+ String_of_Z bestOffset.

(** [total ? bestScore / total : 0] *)
Definition ratio_of (total : Z) (bestScore : score) : number :=
  if total =? 0 then Rat 0 else js_div bestScore total.

Definition analyzeHourlyCounts (counts : list Z) : result :=
  let total := reduce_add counts in
  let sorted := Array_sort (λ a b, a - b) counts in
  let median := median_of sorted in
  let b := best_loop counts in
  let ratio := ratio_of total (bestScore b) in
  let highBars := highBars_of counts median in
  {| utc_offset_hours := bestOffset b;
     utc_label := utc_label_of (bestOffset b);
     iana_tz_example := exampleTz (bestOffset b);
     median := median;
     ratio := ratio;
     bars_high_over_mult := highBars;
     passes_rule := gt_half ratio && (3 <=? highBars)%nat |}.

(** The window as the specification words it: local hour
    [(i + offset) mod 24] in [[8, 18)], with the mathematical modulo. *)
Definition in_window (offset : Z) (i : nat) : bool :=
  (8 <=? (Z.of_nat i + offset) mod 24) && ((Z.of_nat i + offset) mod 24 <? 18).

Definition Zsum (l : list Z) : Z := foldr Z.add 0 l.

(** [daytimeSum(offset)] as the specification words it: the sum of
    [counts[i]] over the hours [i] of the day that fall in the window. *)
Definition daytimeSum (counts : list Z) (offset : Z) : Z :=
  Zsum (map (λ i, default 0 (counts !! i)) (List.filter (in_window offset) (seq 0 24))).

(** ** The scorer on arrays in a store

    [[...counts]] allocates a new array and [sort] reorders that array in
    place; the store makes visible which array is written. *)

Abbreviation store := (gmap positive (list Z)).

(** A computation on the store; [None] only for a reference that holds no array. *)
Definition M (A : Type) : Type := store → option (A * store).

Definition ret {A} (a : A) : M A := λ σ, Some (a, σ).

Definition bind {A B} (m : M A) (k : A → M B) : M B :=
  λ σ, match m σ with
       | Some (a, σ') => k a σ'
       | None => None
       end.

Notation "x ←' m ; k" := (bind m (λ x, k))
  (at level 100, m at next level, right associativity, only parsing).

(** Read the elements of the array at [r]. *)
Definition load (r : positive) : M (list Z) :=
  λ σ, match σ !! r with
       | Some a => Some (a, σ)
       | None => None
       end.

(** [[...r]]: a new array with the elements of [r]. *)
Definition spread (r : positive) : M positive :=
  a ←' load r;
  λ σ, let r' := fresh (dom σ) in Some (r', <[r' := a]> σ).

(** [r.sort(cmp)]: sorts the array at [r] in place and returns [r]. *)
Definition sort_in_place (cmp : Z → Z → Z) (r : positive) : M positive :=
  a ←' load r;
  λ σ, Some (r, <[r := Array_sort cmp a]> σ).

Definition analyzeHourlyCounts_store (counts : positive) : M result :=
  cs ←' load counts;
  let total := reduce_add cs in
  copy ←' spread counts;
  sorted ←' sort_in_place (λ a b, a - b) copy;
  ss ←' load sorted;
  let median := median_of ss in
  cs1 ←' load counts;
  let b := best_loop cs1 in
  let ratio := ratio_of total (bestScore b) in
  cs2 ←' load counts;
  let highBars := highBars_of cs2 median in
  ret {| utc_offset_hours := bestOffset b;
         utc_label := utc_label_of (bestOffset b);
         iana_tz_example := exampleTz (bestOffset b);
         median := median;
         ratio := ratio;
         bars_high_over_mult := highBars;
         passes_rule := gt_half ratio && (3 <=? highBars)%nat |}.

(** ** The histogram accumulator *)

(** What an event's [wallet_address] can hold. *)
Inductive value :=
| Undefined                  (* absent, or null *)
| Str (s : string)
| Other (truthy : bool).     (* a number, boolean or object: it has no [toLowerCase] *)

Definition truthy (v : value) : bool :=
  match v with
  | Undefined => false
  | Str s => negb (String.eqb s "")
  | Other t => t
  end.

(** [block_time] holds [Date.parse(ev.block_time)]: [None] when the text
    does not parse (NaN), otherwise the time value in milliseconds, e.g.
    [Some 0] for "1970-01-01T00:00:00Z". *)
Record event := { wallet_address : value; block_time : option Z }.

Definition lower_ascii (c : ascii) : ascii :=
  let n := nat_of_ascii c in
  if ((65 <=? n) && (n <=? 90))%nat then ascii_of_nat (n + 32) else c.

Fixpoint toLowerCase (s : string) : string :=
  match s with
  | EmptyString => EmptyString
  | String c s' => String (lower_ascii c) (toLowerCase s')
  end.

(** [new Date(ts).getUTCHours()]: floor(ts / msPerHour) modulo 24. *)
Definition getUTCHours (ts : Z) : nat := Z.to_nat ((ts / 3600000) mod 24).

(** A filter is used when it is truthy: given and not the empty string. *)
Definition filter_given (filterAddrLower : option string) : bool :=
  match filterAddrLower with
  | Some f => negb (String.eqb f "")
  | None => false
  end.

Inductive outcome :=
| Skip                    (* [continue] *)
| Count (hourUtc : nat)   (* reaches the increment *)
| Throw.                  (* TypeError, swallowed by [catch {}] *)

(** The body of the [try] block up to the increment. *)
Definition event_outcome (filterAddrLower : option string) (ev : event) : outcome :=
  match block_time ev with
  | None => Skip
  | Some ts =>
      if filter_given filterAddrLower && truthy (wallet_address ev) then
        match wallet_address ev with
        | Str s =>
            if bool_decide (Some (toLowerCase s) ≠ filterAddrLower)
            then Skip
            else Count (getUTCHours ts)
        | _ => Throw
        end
      else Count (getUTCHours ts)
  end.

(** [counts24[hourUtc] = (counts24[hourUtc] || 0) + 1].  Past the end the
    array grows up to [hourUtc]; the skipped slots are holes, which this
    model fills with [0] (an hour is below 24, so a 24-bucket histogram never
    grows). *)
Definition increment (counts24 : list Z) (hourUtc : nat) : list Z :=
  match counts24 !! hourUtc with
  | Some c => <[hourUtc := c + 1]> counts24
  | None => counts24 ++ replicate (hourUtc - length counts24) 0 ++ [1]
  end.

Definition accumulate_step (filterAddrLower : option string) (counts24 : list Z) (ev : event)
  : list Z :=
  match event_outcome filterAddrLower ev with
  | Count hourUtc => increment counts24 hourUtc
  | Skip | Throw => counts24
  end.

Definition accumulateHoursFromActivity
    (counts24 : list Z) (activity : list event) (filterAddrLower : option string) : list Z :=
  fold_left (accumulate_step filterAddrLower) activity counts24.

(** The discard rule as the specification words it: an event is dropped
    when its time does not parse, or when a filter is given and the event's
    address does not match it (compared in lower case). *)
Definition spec_discards (filter : option string) (ev : event) : bool :=
  match block_time ev with
  | None => true
  | Some _ =>
      match filter with
      | Some f =>
          match wallet_address ev with
          | Str s => negb (String.eqb (toLowerCase s) (toLowerCase f))
          | _ => true
          end
      | None => false
      end
  end.

(** The rule the code implements. *)
Definition keeps (filterAddrLower : option string) (ev : event) : bool :=
  match event_outcome filterAddrLower ev with
  | Count _ => true
  | _ => false
  end.

(** ** The cache key *)

(** The comparison of [sort()] without a comparator: by code units. *)
Definition default_compare (x y : string) : Z :=
  match String.compare x y with
  | Lt => -1
  | Eq => 0
  | Gt => 1
  end.

(** [addresses.map((a) => String(a).toLowerCase()).sort().join(',')];
    the addresses are strings, on which [String] is the identity. *)
Definition cacheKey (addresses : list string) : string :=
  String.concat "," (Array_sort default_compare (map toLowerCase addresses)).

(** ** The address worker pool *)

(** [fetchAddressHistogramSIM(address)]: a new histogram of 24 zeros, to
    which every chain request that succeeds adds its page of activity,
    filtered by the lower-cased address.  [pages] are the pages of the
    requests that succeeded, in the order they completed; a request that
    failed adds nothing. *)
Definition fetchAddressHistogramSIM (address : string) (pages : list (list event)) : list Z :=
  fold_left
    (λ counts activity, accumulateHoursFromActivity counts activity (Some (toLowerCase address)))
    pages (replicate 24 0).

(** [{ address, ...analyzeHourlyCounts(counts) }] *)
Record entry := { address : string; analysis : result }.

(** Where a [worker()] call stands: at the head of its loop, suspended in
    [await fetchAddressHistogramSIM(address)], or returned. *)
Inductive worker :=
| AtLoop
| Awaiting (address : string)
| Returned.

Record pool := Pool {
  queue : list string;
  workers : list worker;
  results : list entry;
  fetches : list string      (* the addresses a fetch was started for *)
}.

(** One turn of the event loop: a worker runs from one suspension point to
    the next.  Which worker runs, and what the provider answered, is not
    determined. *)
Inductive step : pool → pool → Prop :=
| step_pop i q a ws rs fs :
    ws !! i = Some AtLoop →
    step (Pool (q ++ [a]) ws rs fs)
         (Pool q (<[i := Awaiting a]> ws) rs (fs ++ [a]))
| step_push i q a pages ws rs fs :
    ws !! i = Some (Awaiting a) →
    step (Pool q ws rs fs)
         (Pool q (<[i := AtLoop]> ws)
               (rs ++ [{| address := a;
                          analysis := analyzeHourlyCounts (fetchAddressHistogramSIM a pages) |}])
               fs)
| step_return i ws rs fs :
    ws !! i = Some AtLoop →
    step (Pool [] ws rs fs) (Pool [] (<[i := Returned]> ws) rs fs).

(** [Promise.all] resolves when every worker has returned. *)
Definition settled (p : pool) : Prop := Forall (λ w, w = Returned) (workers p).

(** ** The request handler *)

(** The [addresses] property of the request body. *)
Inductive addresses_field :=
| NotArray                    (* no body, no such property, or any value that is not an array *)
| Array (l : list string).

Inductive response :=
| Status400 (error : string)
| Json (body : list entry)
| Status500 (error : string).

Inductive effect :=
| CacheGet (key : string)
| CacheSet (key : string) (value : list entry)
| Fetch (address : string).

(** [!Array.isArray(addresses) || addresses.length === 0] rejects; otherwise
    the list goes on. *)
Definition accepted (addresses : addresses_field) : option (list string) :=
  match addresses with
  | Array (a :: l) => Some (a :: l)
  | Array [] | NotArray => None
  end.

Section Server.

(** [parseInt(process.env.WORKERS || '5', 10)]; a value that does not parse
    (NaN) starts no worker, like [0]. *)
Variable WORKERS : Z.

(** [Math.min(WORKERS, Math.max(1, Math.ceil(addresses.length / 2)))] *)
Definition workerCount (addresses : list string) : Z :=
  Z.min WORKERS (Z.max 1 ((Z.of_nat (length addresses) + 1) / 2)).

(** [queue = [...addresses.map(String)]], [results = []], and
    [Array.from({ length: workerCount }, worker)]. *)
Definition start (addresses : list string) : pool :=
  Pool addresses (replicate (Z.to_nat (workerCount addresses)) AtLoop) [] [].

(** A run of the handler on a request body and a cache: the response, the
    cache afterwards and the effects in order. *)
Inductive handler (cache : gmap string (list entry)) (body : addresses_field)
  : response → gmap string (list entry) → list effect → Prop :=
| handler_reject :
    accepted body = None →
    handler cache body (Status400 "addresses array required") cache []
| handler_hit addresses cached :
    accepted body = Some addresses →
    cache !! cacheKey addresses = Some cached →
    handler cache body (Json cached) cache [CacheGet (cacheKey addresses)]
| handler_miss addresses p :
    accepted body = Some addresses →
    cache !! cacheKey addresses = None →
    rtc step (start addresses) p →
    settled p →
    handler cache body (Json (results p))
            (<[cacheKey addresses := results p]> cache)
            (CacheGet (cacheKey addresses) :: map Fetch (fetches p)
               ++ [CacheSet (cacheKey addresses) (results p)]).

End Server.

(** ** Inputs of the examples and predicates of the proofs *)

Definition zeros24 : list Z := replicate 24 0.

(** All 24 counts at 0 except hours 9-17, at 10 each. *)
Definition office9to17 : list Z := replicate 9 0 ++ replicate 9 10 ++ replicate 6 0.

(** 12 idle hours and 12 hours at 10. *)
Definition half_busy : list Z := replicate 12 0 ++ replicate 12 10.

(** The state before the first offset is tried. *)
Definition best0 : best := {| bestOffset := 0; bestScore := NegInfinity |}.

(** [b] holds the first maximum of [f] over the offsets [l] tried so far. *)
Definition first_max (f : Z → Z) (l : list Z) (b : best) : Prop :=
  ∃ l1 l2,
    l = l1 ++ bestOffset b :: l2 ∧
    bestScore b = Score (f (bestOffset b)) ∧
    Forall (λ o, f o < f (bestOffset b)) l1 ∧
    Forall (λ o, f o ≤ f (bestOffset b)) l2.

(** An event with an empty [wallet_address] at the epoch. *)
Definition anonymous_event : event := {| wallet_address := Str ""; block_time := Some 0 |}.

#[global] Instance outcome_eq_dec : EqDecision outcome.
Proof. solve_decision. Defined.

(** The number of events of [activity] that reach the increment at hour [h]. *)
Definition counted_at (filterAddrLower : option string) (h : nat) (activity : list event) : Z :=
  Z.of_nat (length (filter (λ ev, event_outcome filterAddrLower ev = Count h) activity)).

(** The addresses whose fetch is in flight. *)
Definition awaited (w : worker) : list string :=
  match w with
  | Awaiting a => [a]
  | AtLoop | Returned => []
  end.

Definition in_flight (ws : list worker) : list string := ws ≫= awaited.

#[global] Instance worker_eq_dec : EqDecision worker.
Proof. solve_decision. Defined.

(** What a worker still has to do, in turns of the event loop, besides
    emptying the queue. *)
Definition worker_weight (w : worker) : nat :=
  match w with
  | AtLoop => 1
  | Awaiting _ => 2
  | Returned => 0
  end.

Definition pool_measure (p : pool) : nat :=
  3 * length (queue p) + sum_list_with worker_weight (workers p).

(** The entries of a result list for one address. *)
Definition entries_for (a : string) (rs : list entry) : list entry :=
  filter (λ e, address e = a) rs.

(** The entry of an address for which every chain request failed. *)
Definition silent_entry (a : string) : entry :=
  {| address := a; analysis := analyzeHourlyCounts (fetchAddressHistogramSIM a []) |}.

(** Every requested address is in the queue, in flight or in the results,
    once; the queue is empty as soon as some worker has returned. *)
Definition pool_inv (addresses : list string) (n : nat) (p : pool) : Prop :=
  addresses ≡ₚ queue p ++ in_flight (workers p) ++ map address (results p) ∧
  length (workers p) = n ∧
  (Returned ∈ workers p → queue p = []).

(** ** Further predicates of the proofs *)

(** An hour of the window of [offset] that is 9 or later: the last hour of
    the window, or its first hour when the window wraps around midnight. *)
Definition late_hour (offset : Z) : nat :=
  if 9 <=? (17 - offset) mod 24
  then Z.to_nat ((17 - offset) mod 24)
  else Z.to_nat ((8 - offset) mod 24).

(** The events of [activity] that reach the increment. *)
Definition kept (filterAddrLower : option string) (activity : list event) : list event :=
  filter (λ ev, keeps filterAddrLower ev = true) activity.

(** One page after the other into the same histogram, as the chain
    requests complete. *)
Definition accumulate_pages (filterAddrLower : option string)
    (counts : list Z) (pages : list (list event)) : list Z :=
  fold_left
    (λ counts activity, accumulateHoursFromActivity counts activity filterAddrLower)
    pages counts.

(** ** The chain worker pool of [fetchAddressHistogramSIM]

    The workers of an address share the queue of chain ids and the histogram
    [counts].  A worker is at the head of its loop, suspended in
    [await axios.get(url)] for a chain id ([Awaiting] holds the chain id), or
    returned. *)

Record chain_pool := ChainPool {
  chain_queue : list string;
  chain_workers : list worker;
  chain_counts : list Z;
  chain_requests : list string      (* the chain ids a request was sent for *)
}.

(** One turn of the event loop.  A request that succeeds hands its page
    [r.data?.activity || []] to the accumulator; one that fails (status,
    timeout, network) is caught and changes nothing. *)
Inductive chain_step (addrLower : string) : chain_pool → chain_pool → Prop :=
| chain_pop i q c ws counts rq :
    ws !! i = Some AtLoop →
    chain_step addrLower
      (ChainPool (q ++ [c]) ws counts rq)
      (ChainPool q (<[i := Awaiting c]> ws) counts (rq ++ [c]))
| chain_answered i q c activity ws counts rq :
    ws !! i = Some (Awaiting c) →
    chain_step addrLower
      (ChainPool q ws counts rq)
      (ChainPool q (<[i := AtLoop]> ws)
                 (accumulateHoursFromActivity counts activity (Some addrLower)) rq)
| chain_failed i q c ws counts rq :
    ws !! i = Some (Awaiting c) →
    chain_step addrLower
      (ChainPool q ws counts rq)
      (ChainPool q (<[i := AtLoop]> ws) counts rq)
| chain_return i ws counts rq :
    ws !! i = Some AtLoop →
    chain_step addrLower
      (ChainPool [] ws counts rq)
      (ChainPool [] (<[i := Returned]> ws) counts rq).

Definition chain_settled (p : chain_pool) : Prop :=
  Forall (λ w, w = Returned) (chain_workers p).

(** [counts = new Array(24).fill(0)], [queue = [...SIM_CHAIN_IDS]] and
    [Array.from({ length: WORKERS }, ...)]. *)
Definition chain_start (SIM_CHAIN_IDS : list string) (WORKERS : Z) : chain_pool :=
  ChainPool SIM_CHAIN_IDS (replicate (Z.to_nat WORKERS) AtLoop) (replicate 24 0) [].


(** An entry that holds the analysis of a histogram of its address. *)
Definition scored (e : entry) : Prop :=
  ∃ pages, analysis e = analyzeHourlyCounts (fetchAddressHistogramSIM (address e) pages).

(** ** The client, [detectTimezones]

    [r.ok] holds for the status codes 200 to 299; [res.json(...)] answers
    with status 200. *)
Definition status (r : response) : Z :=
  match r with
  | Status400 _ => 400
  | Json _ => 200
  | Status500 _ => 500
  end.

Definition ok (r : response) : bool := (200 <=? status r) && (status r <=? 299).

(** What the promise of [detectTimezones] settles to: rejected with the
    message of the error thrown, or resolved with [r.json()], the body of
    the response [r]. *)
Inductive promise :=
| Rejected (message : string)
| Resolved (r : response).

Definition detectTimezones (r : response) : promise :=
  if ok r then Resolved r
  else Rejected ("API HTTP " +:+ String_of_Z (status r)).

(** The single worker of a small request, and what it holds. *)
Definition lone_worker_inv (addresses : list string) (p : pool) : Prop :=
  ∃ w, workers p = [w] ∧
       map address (results p) ++ awaited w ++ rev (queue p) = rev addresses.

(** * The map UI: the click log and the zone colours *)

(** A row of the click log. *)
Record row := {
  ts : string;
  zone : string;
  source : string;
  address_count : Z;
  sample : string
}.

Record toggled := { rows : list row; toggledOff : bool }.

(** [x || d] for a string that may be undefined. *)
Definition string_or (x : option string) (d : string) : string :=
  match x with
  | Some EmptyString | None => d
  | Some s => s
  end.

(** [prevRows.findIndex((r) => r.zone === zoneLabel)]; [None] is [-1]. *)
Definition findIndex_zone (zoneLabel : string) (prevRows : list row) : option nat :=
  fst <$> list_find (λ r, zone r = zoneLabel) prevRows.

(** [now] is [new Date().toISOString()] at the time of the call. *)
Definition toggleRowsLifo (now : string) (prevRows : list row) (zoneLabel : string)
    (addressCount : option Z) (sample : option string) (source : option string) : toggled :=
  match findIndex_zone zoneLabel prevRows with
  | Some 0%nat => {| rows := drop 1 prevRows; toggledOff := true |}
  | Some idx =>
      {| rows := take idx prevRows ++ drop (idx + 1) prevRows; toggledOff := true |}
  | None =>
      {| rows := {| ts := now;
                    zone := zoneLabel;
                    source := string_or source "tzbb";
                    address_count := default 0 addressCount;
                    sample := string_or sample "" |} :: prevRows;
         toggledOff := false |}
  end.

(** [s.charCodeAt(i)] *)
Definition charCode (c : ascii) : Z := Z.of_nat (nat_of_ascii c).

(** [x >>> 0]: the number as an unsigned 32-bit integer. *)
Definition to_uint32 (x : Z) : Z := x mod 2 ^ 32.

(** [for (...) h = (h * 31 + s.charCodeAt(i)) >>> 0], from [h]. *)
Fixpoint pastel_hash (h : Z) (s : string) : Z :=
  match s with
  | EmptyString => h
  | String c s' => pastel_hash (to_uint32 (h * 31 + charCode c)) s'
  end.

Definition pastel_hue (label : string) : Z := Z.rem (pastel_hash 0 label) 360.

(** [`hsl(${hue} 85% 70%)`] *)
Definition pastelFromLabel (label : string) : string :=
  "hsl(" +:+ String_of_Z (pastel_hue label) +:+ " 85% 70%)".

(** The polynomial the loop evaluates, without wrap-around. *)
Fixpoint polynomial (h : Z) (s : string) : Z :=
  match s with
  | EmptyString => h
  | String c s' => polynomial (h * 31 + charCode c) s'
  end.

(** * Text helpers of the configuration and of the address box *)

(** The white space of [trim] and of [\s], among the ASCII characters:
    tab, line feed, vertical tab, form feed, carriage return and space. *)
Definition is_space (c : ascii) : bool :=
  let n := nat_of_ascii c in
  (((9 <=? n) && (n <=? 13)) || (n =? 32))%nat.

Fixpoint trimStart (s : string) : string :=
  match s with
  | EmptyString => EmptyString
  | String c s' => if is_space c then trimStart s' else s
  end.

Fixpoint trimEnd (s : string) : string :=
  match s with
  | EmptyString => EmptyString
  | String c s' =>
      match trimEnd s' with
      | EmptyString => if is_space c then EmptyString else String c EmptyString
      | t => String c t
      end
  end.

(** [s.trim()] *)
Definition trim (s : string) : string := trimEnd (trimStart s).

(** Every character of [s] satisfies [p]. *)
Fixpoint all_chars (p : ascii → bool) (s : string) : bool :=
  match s with
  | EmptyString => true
  | String c s' => p c && all_chars p s'
  end.

(** [s.split(',')]: the pieces between the commas, empty ones included. *)
Fixpoint split_comma (s : string) : list string :=
  match s with
  | EmptyString => [EmptyString]
  | String c s' =>
      if Ascii.eqb c ","
      then EmptyString :: split_comma s'
      else match split_comma s' with
           | piece :: pieces => String c piece :: pieces
           | [] => [String c EmptyString]
           end
  end.

Definition not_comma (c : ascii) : bool := negb (Ascii.eqb c ",").

(** [.filter(Boolean)] on strings: the non-empty ones. *)
Definition nonempty (l : list string) : list string :=
  filter (λ s, s ≠ EmptyString) l.

(** [(process.env.SIM_CHAIN_IDS || '1,137,8453,10,42161')
      .split(',').map((s) => s.trim()).filter(Boolean)];
    [env] is the environment variable, [None] when it is not set. *)
Definition SIM_CHAIN_IDS_of (env : option string) : list string :=
  nonempty (map trim (split_comma (string_or env "1,137,8453,10,42161"))).

(** A chain id as the configuration yields it: not empty, without comma
    and without white space around it. *)
Definition clean_id (s : string) : Prop :=
  s ≠ EmptyString ∧ all_chars not_comma s = true ∧ trim s = s.

(** ** The address box *)

(** The class [[\s,;\n\r]] of the separators. *)
Definition is_separator (c : ascii) : bool :=
  is_space c || Ascii.eqb c "," || Ascii.eqb c ";".

Definition not_separator (c : ascii) : bool := negb (is_separator c).

(** [s.split(/[\s,;\n\r]+/)], for the class [sep]: the pieces between
    the maximal runs of separators; a run at the start or at the end of the
    text leaves an empty piece there.  [in_run] tells that the character
    before was a separator. *)
Fixpoint split_runs (sep : ascii → bool) (in_run : bool) (s : string) : list string :=
  match s with
  | EmptyString => [EmptyString]
  | String c s' =>
      if sep c then
        if in_run then split_runs sep true s'
        else EmptyString :: split_runs sep true s'
      else
        match split_runs sep false s' with
        | piece :: pieces => String c piece :: pieces
        | [] => [String c EmptyString]
        end
  end.

Definition in_range (lo hi c : ascii) : bool :=
  ((nat_of_ascii lo <=? nat_of_ascii c) && (nat_of_ascii c <=? nat_of_ascii hi))%nat.

(** [[0-9a-fA-F]] *)
Definition is_hex (c : ascii) : bool :=
  in_range "0" "9" c || in_range "a" "f" c || in_range "A" "F" c.

(** [[1-9A-HJ-NP-Za-km-z]] *)
Definition is_base58 (c : ascii) : bool :=
  in_range "1" "9" c || in_range "A" "H" c || in_range "J" "N" c ||
  in_range "P" "Z" c || in_range "a" "k" c || in_range "m" "z" c.

(** [/^(0x)[0-9a-fA-F]{40}$/.test(s)] *)
Definition isEvm (s : string) : bool :=
  match s with
  | String "0" (String "x" digits) =>
      (String.length digits =? 40)%nat && all_chars is_hex digits
  | _ => false
  end.

(** [/^[1-9A-HJ-NP-Za-km-z]{32,44}$/.test(s)] *)
Definition isSol (s : string) : bool :=
  (32 <=? String.length s)%nat && (String.length s <=? 44)%nat && all_chars is_base58 s.

(** [Array.from(new Set(parts))]: the first occurrence of every string, in
    order; [seen] holds the strings already in the set. *)
Fixpoint dedupe (seen : list string) (parts : list string) : list string :=
  match parts with
  | [] => []
  | x :: parts' =>
      if decide (x ∈ seen) then dedupe seen parts'
      else x :: dedupe (x :: seen) parts'
  end.

Definition parseAddresses (text : string) : list string :=
  let parts := nonempty (map trim (split_runs is_separator false text)) in
  let uniq := dedupe [] parts in
  filter (λ a, isEvm a || isSol a = true) uniq.

(** A string the address box accepts. *)
Definition valid_address (a : string) : Prop := isEvm a || isSol a = true.

(** The text of the self-test of the UI, with its two line feeds. *)
Definition self_test_text : string :=
  "0x0000000000000000000000000000000000000000"
    +:+ String (ascii_of_nat 10) "junk"
    +:+ String (ascii_of_nat 10) "1BoatSLRHtKNngkdXEeobR76b53LETtpyT".

(** ** The sanitizer of the zone polygons *)

(** A number is finite or not (NaN, an infinity). *)
Inductive num :=
| Finite (q : Q)
| NotFinite.

(** The values a parsed GeoJSON document is made of. *)
#[warnings="-register-all"]
Inductive json :=
| JNull
| JBool (b : bool)
| JNumber (x : num)
| JString (s : string)
| JArray (items : list json)
| JObject (fields : list (string * json)).

(** The first field named [key]. *)
Fixpoint field (key : string) (fields : list (string * json)) : option json :=
  match fields with
  | [] => None
  | (k, v) :: fields' => if String.eqb k key then Some v else field key fields'
  end.

(** [v.key]; [None] is undefined.  Only objects have the properties read
    here. *)
Definition prop (key : string) (v : option json) : option json :=
  match v with
  | Some (JObject fields) => field key fields
  | _ => None
  end.

(** [v && typeof v === 'object'] *)
Definition is_object (v : option json) : bool :=
  match v with
  | Some (JObject _) | Some (JArray _) => true
  | _ => false
  end.

(** [v === s] *)
Definition is_string (s : string) (v : option json) : bool :=
  match v with
  | Some (JString s') => String.eqb s' s
  | _ => false
  end.

(** [typeof x === 'number' && Number.isFinite(x)] *)
Definition isNumber (x : option json) : bool :=
  match x with
  | Some (JNumber (Finite _)) => true
  | _ => false
  end.

Definition isPosition (p : json) : bool :=
  match p with
  | JArray items =>
      (2 <=? length items)%nat && isNumber (items !! 0%nat) && isNumber (items !! 1%nat)
  | _ => false
  end.

Definition isLinearRing (ring : json) : bool :=
  match ring with
  | JArray items => (4 <=? length items)%nat && forallb isPosition items
  | _ => false
  end.

Definition isPolygon (coords : json) : bool :=
  match coords with
  | JArray items => (0 <? length items)%nat && forallb isLinearRing items
  | _ => false
  end.

Definition isMultiPolygon (coords : json) : bool :=
  match coords with
  | JArray items => (0 <? length items)%nat && forallb isPolygon items
  | _ => false
  end.

(** A missing [coordinates] is not an array. *)
Definition on_value (test : json → bool) (v : option json) : bool :=
  match v with
  | Some x => test x
  | None => false
  end.

(** [!!obj && obj.type === 'FeatureCollection' && Array.isArray(obj.features)] *)
Definition isFeatureCollection (obj : json) : bool :=
  is_string "FeatureCollection" (prop "type" (Some obj)) &&
  match prop "features" (Some obj) with
  | Some (JArray _) => true
  | _ => false
  end.

(** The body of the loop: whether [feat] is pushed. *)
Definition pushes (feat : json) : bool :=
  if negb (is_object (Some feat)) then false
  else
    let g := prop "geometry" (Some feat) in
    if negb (is_object g) then false
    else if is_string "Polygon" (prop "type" g)
            && on_value isPolygon (prop "coordinates" g) then true
    else if is_string "MultiPolygon" (prop "type" g)
            && on_value isMultiPolygon (prop "coordinates" g) then true
    else false.

(** [None] is [null]. *)
Definition sanitizeFeatureCollection (fcIn : json) : option json :=
  if negb (isFeatureCollection fcIn) then None
  else
    match prop "features" (Some fcIn) with
    | Some (JArray features) =>
        let kept := List.filter pushes features in
        match kept with
        | [] => None
        | _ => Some (JObject [("type", JString "FeatureCollection");
                              ("features", JArray kept)])
        end
    | _ => None
    end.

Definition position (x y : Z) : json :=
  JArray [JNumber (Finite (inject_Z x)); JNumber (Finite (inject_Z y))].

(** The built-in polygon of the UI. *)
Definition FALLBACK_FC : json :=
  JObject
    [("type", JString "FeatureCollection");
     ("features",
      JArray
        [JObject
           [("type", JString "Feature");
            ("properties", JObject [("tzid", JString "UTC (fallback)")]);
            ("geometry",
             JObject
               [("type", JString "Polygon");
                ("coordinates",
                 JArray [JArray [position (-5) 45; position 5 45; position 5 35;
                                 position (-5) 35; position (-5) 45]])])]])].

(** * Proofs *)

(** ** The inner loop computes the windowed sum *)

Lemma localHour_mod i offset :
  -24 ≤ offset → localHour i offset = (Z.of_nat i + offset) mod 24.
Proof.
  intros Hoff. unfold localHour.
  rewrite Z.rem_mod_nonneg by lia.
  replace (Z.of_nat i + offset + 24) with (Z.of_nat i + offset + 1 * 24) by lia.
  apply Z_mod_plus_full.
Qed.

Lemma daySum_step_window counts offset acc i :
  -24 ≤ offset →
  daySum_step counts offset acc i =
    if in_window offset i
    then match acc, counts !! i with Some d, Some c => Some (d + c) | _, _ => None end
    else acc.
Proof.
  intros Hoff. unfold daySum_step, in_window. by rewrite localHour_mod.
Qed.

Lemma daySum_fold counts offset (hours : list nat) acc :
  -24 ≤ offset →
  Forall (λ i, (i < length counts)%nat) hours →
  fold_left (daySum_step counts offset) hours (Some acc) =
    Some (acc + Zsum (map (λ i, default 0 (counts !! i))
                          (List.filter (in_window offset) hours))).
Proof.
  intros Hoff Hin. revert acc.
  induction Hin as [|i hours Hi _ IH]; intros acc; simpl.
  - f_equal. lia.
  - rewrite daySum_step_window by done.
    destruct (lookup_lt_is_Some_2 counts i Hi) as [c Hc].
    destruct (in_window offset i); simpl.
    + rewrite Hc, IH. simpl. f_equal. lia.
    + apply IH.
Qed.

Lemma daySum_daytimeSum counts offset :
  length counts = 24%nat → -24 ≤ offset →
  daySum counts offset = Some (daytimeSum counts offset).
Proof.
  intros Hlen Hoff. unfold daySum, daytimeSum.
  rewrite daySum_fold; [done..|].
  apply Forall_forall. intros i Hi%elem_of_seq. lia.
Qed.

(** ** The outer loop keeps the first maximum *)

Lemma best_step_first f counts l b x :
  daySum counts x = Some (f x) →
  first_max f l b →
  first_max f (l ++ [x]) (best_step counts b x).
Proof.
  intros Hx (l1 & l2 & -> & Hs & H1 & H2).
  unfold best_step. rewrite Hx, Hs. simpl.
  destruct (Z.gtb_spec (f x) (f (bestOffset b))) as [Hgt|Hle].
  - exists (l1 ++ bestOffset b :: l2), []. simpl. split_and!; [done..| |constructor].
    apply Forall_app. split; [|constructor; [lia|]].
    + eapply Forall_impl; [exact H1|]. simpl. intros; lia.
    + eapply Forall_impl; [exact H2|]. simpl. intros; lia.
  - exists l1, (l2 ++ [x]). split_and!; [by rewrite <- app_assoc|done..|].
    apply Forall_app. split; [done|]. by constructor.
Qed.

Lemma best_loop_first f counts l x :
  (∀ o, o ∈ x :: l → daySum counts o = Some (f o)) →
  first_max f (x :: l) (fold_left (best_step counts) (x :: l) best0).
Proof.
  induction l as [|y l IH] using rev_ind; intros Hall.
  - simpl. unfold best_step. rewrite (Hall x) by apply list_elem_of_here. simpl.
    exists [], []. by split_and!.
  - rewrite app_comm_cons, fold_left_app.
    apply (best_step_first f counts (x :: l) _ y).
    + apply Hall. rewrite app_comm_cons, elem_of_app, list_elem_of_singleton. by right.
    + apply IH. intros o Ho. apply Hall. rewrite app_comm_cons, elem_of_app. by left.
Qed.

(** The offsets are tried in ascending order, so what precedes an offset
    in the list is below it. *)
Lemma seqZ_split m n l1 o l2 :
  seqZ m n = l1 ++ o :: l2 →
  Forall (λ x, m ≤ x < o) l1 ∧ Forall (λ x, o < x < m + n) l2 ∧ m ≤ o < m + n.
Proof.
  intros Heq.
  assert (Ho : seqZ m n !! length l1 = Some o).
  { rewrite Heq. by apply list_lookup_middle. }
  apply lookup_seqZ in Ho as [Ho Hlt]. subst o.
  split; [|split; [|lia]].
  - apply Forall_lookup. intros i x Hi.
    assert (Hi' : seqZ m n !! i = Some x).
    { rewrite Heq. by apply lookup_app_l_Some. }
    apply lookup_lt_Some in Hi.
    apply lookup_seqZ in Hi' as [-> _]. lia.
  - apply Forall_lookup. intros i x Hi.
    assert (Hi' : seqZ m n !! (length l1 + S i)%nat = Some x).
    { rewrite Heq. rewrite lookup_app_r by lia.
      by replace (length l1 + S i - length l1)%nat with (S i) by lia. }
    apply lookup_seqZ in Hi' as [-> ?]. lia.
Qed.

(** What the two loops leave in [bestOffset] and [bestScore] on a
    histogram of 24 buckets. *)
Lemma best_loop_spec counts :
  length counts = 24%nat →
  let b := best_loop counts in
  bestScore b = Score (daytimeSum counts (bestOffset b)) ∧
  -12 ≤ bestOffset b ≤ 14 ∧
  (∀ o, -12 ≤ o ≤ 14 → daytimeSum counts o ≤ daytimeSum counts (bestOffset b)) ∧
  (∀ o, -12 ≤ o < bestOffset b → daytimeSum counts o < daytimeSum counts (bestOffset b)).
Proof.
  intros Hlen b.
  assert (Hfm : first_max (daytimeSum counts) offsets b).
  { unfold b, best_loop. change offsets with (-12 :: seqZ (-11) 26).
    apply best_loop_first. intros o Ho. apply daySum_daytimeSum; [done|].
    change (-12 :: seqZ (-11) 26) with (seqZ (-12) 27) in Ho.
    apply elem_of_seqZ in Ho. lia. }
  destruct Hfm as (l1 & l2 & Heq & Hs & H1 & H2).
  destruct (seqZ_split _ _ _ _ _ Heq) as (Hl1 & Hl2 & Hb).
  split_and!; [done|lia|lia| |].
  - intros o Ho.
    assert (Hin : o ∈ l1 ++ bestOffset b :: l2).
    { rewrite <- Heq. apply elem_of_seqZ. lia. }
    apply elem_of_app in Hin as [Hin|Hin].
    + rewrite Forall_forall in H1. specialize (H1 _ Hin). simpl in H1. lia.
    + apply elem_of_cons in Hin as [->|Hin]; [lia|].
      rewrite Forall_forall in H2. by apply H2.
  - intros o Ho.
    assert (Hin : o ∈ l1 ++ bestOffset b :: l2).
    { rewrite <- Heq. apply elem_of_seqZ. lia. }
    apply elem_of_app in Hin as [Hin|Hin].
    + rewrite Forall_forall in H1. by apply H1.
    + apply elem_of_cons in Hin as [->|Hin]; [lia|].
      rewrite Forall_forall in Hl2. specialize (Hl2 _ Hin). simpl in Hl2. lia.
Qed.

(** ** The comparator [(a, b) => a - b] sorts ascending *)

Lemma before_minus x y : before (λ a b : Z, a - b) x y ↔ x ≤ y.
Proof. unfold before. lia. Qed.

Lemma before_minus_total : Total (before (λ a b : Z, a - b)).
Proof. intros x y. rewrite !before_minus. lia. Qed.

Lemma before_minus_trans : Transitive (before (λ a b : Z, a - b)).
Proof. intros x y z. rewrite !before_minus. lia. Qed.

Lemma before_minus_antisymm : AntiSymm (=) (before (λ a b : Z, a - b)).
Proof. intros x y. rewrite !before_minus. lia. Qed.

Lemma Sorted_weaken {A} (R R' : relation A) l :
  (∀ x y, R x y → R' x y) → Sorted R l → Sorted R' l.
Proof.
  intros HR. induction 1 as [|x l _ IH Hhd]; constructor; [done|].
  destruct Hhd; constructor; auto.
Qed.

(** Every ascending arrangement of the elements is the array [sort] leaves. *)
Lemma Array_sort_minus_unique counts sorted :
  Sorted Z.le sorted → sorted ≡ₚ counts →
  Array_sort (λ a b, a - b) counts = sorted.
Proof.
  intros Hs Hp. unfold Array_sort.
  apply (@Sorted_unique _ _ before_minus_trans before_minus_antisymm).
  - apply (@Sorted_merge_sort _ _ _ before_minus_total).
  - eapply Sorted_weaken; [|exact Hs]. intros x y. by rewrite before_minus.
  - by rewrite merge_sort_Permutation.
Qed.

Lemma Array_sort_length {A} (cmp : A → A → Z) a :
  length (Array_sort cmp a) = length a.
Proof. unfold Array_sort. by rewrite merge_sort_Permutation. Qed.

Lemma median_sorted_12 counts sorted :
  length counts = 24%nat →
  Sorted Z.le sorted → sorted ≡ₚ counts →
  median (analyzeHourlyCounts counts) = sorted !! 12%nat.
Proof.
  intros Hlen Hs Hp. simpl. unfold median_of.
  rewrite Array_sort_length, Hlen.
  by rewrite (Array_sort_minus_unique counts sorted).
Qed.

(** ** The scorer on the store *)

Lemma bind_run {A B} (m : M A) (k : A → M B) σ a σ' :
  m σ = Some (a, σ') → bind m k σ = k a σ'.
Proof. unfold bind. by intros ->. Qed.

Lemma load_run (σ : store) r a : σ !! r = Some a → load r σ = Some (a, σ).
Proof. unfold load. by intros ->. Qed.

Lemma spread_run (σ : store) r a :
  σ !! r = Some a →
  spread r σ = Some (fresh (dom σ), <[fresh (dom σ) := a]> σ).
Proof. intros Hr. unfold spread. by rewrite (bind_run _ _ _ _ _ (load_run σ r a Hr)). Qed.

Lemma sort_in_place_run cmp (σ : store) r a :
  σ !! r = Some a →
  sort_in_place cmp r σ = Some (r, <[r := Array_sort cmp a]> σ).
Proof.
  intros Hr. unfold sort_in_place. by rewrite (bind_run _ _ _ _ _ (load_run σ r a Hr)).
Qed.

Lemma fresh_not_allocated (σ : store) r : is_Some (σ !! r) → fresh (dom σ) ≠ r.
Proof. intros Hr Heq. apply (is_fresh (dom σ)). rewrite Heq. by apply elem_of_dom. Qed.

Lemma analyzeHourlyCounts_store_run (σ : store) r counts :
  σ !! r = Some counts →
  analyzeHourlyCounts_store r σ =
    Some (analyzeHourlyCounts counts,
          <[fresh (dom σ) := Array_sort (λ a b, a - b) counts]> σ).
Proof.
  intros Hr.
  assert (Hne : fresh (dom σ) ≠ r) by (apply fresh_not_allocated; eauto).
  set (σ2 := <[fresh (dom σ) := Array_sort (λ a b, a - b) counts]> σ).
  assert (Hr2 : σ2 !! r = Some counts).
  { unfold σ2. by rewrite lookup_insert_ne. }
  unfold analyzeHourlyCounts_store.
  rewrite (bind_run _ _ _ _ _ (load_run σ r counts Hr)).
  rewrite (bind_run _ _ _ _ _ (spread_run σ r counts Hr)).
  rewrite (bind_run _ _ _ (fresh (dom σ)) σ2).
  2:{ erewrite sort_in_place_run by apply lookup_insert_eq.
      unfold σ2. by rewrite insert_insert_eq. }
  rewrite (bind_run _ _ _ (Array_sort (λ a b, a - b) counts) σ2).
  2:{ apply load_run. unfold σ2. apply lookup_insert_eq. }
  rewrite (bind_run _ _ _ _ _ (load_run σ2 r counts Hr2)).
  rewrite (bind_run _ _ _ _ _ (load_run σ2 r counts Hr2)).
  reflexivity.
Qed.

(** ** Claims on the scorer *)

Lemma all_zero_zeros24 counts :
  length counts = 24%nat → Forall (λ c, c = 0) counts → counts = zeros24.
Proof.
  intros Hlen Hall. unfold zeros24. symmetry.
  apply replicate_as_Forall. split; [done|].
  eapply Forall_impl; [exact Hall|]. done.
Qed.

(** C1 (as amended): for a histogram whose 24 buckets are all zero the
    scorer returns [utc_offset_hours = -12] (the first offset tried takes the
    place of the initial [-Infinity] and no later one exceeds its score of
    zero), [iana_tz_example = "Etc/GMT+12"], [ratio = 0] and
    [passes_rule = false]. *)
Theorem C1_all_zero_histogram counts :
  length counts = 24%nat → Forall (λ c, c = 0) counts →
  let r := analyzeHourlyCounts counts in
  utc_offset_hours r = -12 ∧
  iana_tz_example r = "Etc/GMT+12" ∧
  ratio r = Rat 0 ∧
  passes_rule r = false.
Proof.
  intros Hlen Hall. rewrite (all_zero_zeros24 counts Hlen Hall).
  vm_compute. done.
Qed.

Lemma C1_all_zero_histogram_witness :
  length zeros24 = 24%nat ∧ Forall (λ c, c = 0) zeros24 ∧
  utc_offset_hours (analyzeHourlyCounts zeros24) = -12.
Proof.
  assert (Hz : Forall (λ c, c = 0) zeros24) by (by apply Forall_replicate).
  split; [reflexivity|]. split; [exact Hz|].
  apply (C1_all_zero_histogram zeros24); [reflexivity|exact Hz].
Defined.

(** C1 as stated fails: on the all-zero histogram the scorer does not
    return offset 0 with zone "Etc/UTC". *)
Lemma C1_counterexample :
  ¬ (utc_offset_hours (analyzeHourlyCounts zeros24) = 0 ∧
     iana_tz_example (analyzeHourlyCounts zeros24) = "Etc/UTC" ∧
     passes_rule (analyzeHourlyCounts zeros24) = false).
Proof. vm_compute. intros [? _]. discriminate. Qed.

(** C2 (as amended): for the histogram with 10 at hours 9-17 and 0
    elsewhere, [daytimeSum(0) = 90]; offset -1 reaches 90 as well and is
    tried first, so the scorer returns [utc_offset_hours = -1], with
    [ratio = 1]. *)
Theorem C2_office_hours_example :
  let r := analyzeHourlyCounts office9to17 in
  daySum office9to17 0 = Some 90 ∧
  daySum office9to17 (-1) = Some 90 ∧
  utc_offset_hours r = -1 ∧
  ∃ q, ratio r = Rat q ∧ (q == 1)%Q.
Proof.
  vm_compute. split_and!; [done..|].
  eexists. split; [reflexivity|]. reflexivity.
Qed.

(** C2 as stated fails: the offset returned for that histogram is not 0. *)
Lemma C2_counterexample :
  ¬ (daySum office9to17 0 = Some 90 ∧
     utc_offset_hours (analyzeHourlyCounts office9to17) = 0).
Proof. vm_compute. intros [_ ?]. discriminate. Qed.

(** C3: on every histogram of 24 buckets the offsets -12..14 are tried in
    ascending order, the sum of an offset is the sum of [counts[i]] over the
    hours [i] with [(i + offset) mod 24] in [[8, 18)], and the offset
    returned is the lowest one among those of maximal sum. *)
Theorem C3_lowest_offset_of_maximal_sum counts :
  length counts = 24%nat →
  let o := utc_offset_hours (analyzeHourlyCounts counts) in
  Sorted Z.lt offsets ∧
  (∀ off, off ∈ offsets ↔ -12 ≤ off ≤ 14) ∧
  (∀ off, -12 ≤ off ≤ 14 → daySum counts off = Some (daytimeSum counts off)) ∧
  -12 ≤ o ≤ 14 ∧
  (∀ off, -12 ≤ off ≤ 14 → daytimeSum counts off ≤ daytimeSum counts o) ∧
  (∀ off, -12 ≤ off < o → daytimeSum counts off < daytimeSum counts o).
Proof.
  intros Hlen o.
  destruct (best_loop_spec counts Hlen) as (_ & Hr & Hmax & Hfirst).
  split_and!; [| | |apply Hr..|exact Hmax|exact Hfirst].
  - vm_compute. repeat (constructor; [|constructor; reflexivity]). constructor.
  - intros off. unfold offsets. rewrite elem_of_seqZ. lia.
  - intros off Hoff. apply daySum_daytimeSum; [done|lia].
Qed.

Lemma C3_lowest_offset_of_maximal_sum_witness :
  length office9to17 = 24%nat ∧
  -12 ≤ utc_offset_hours (analyzeHourlyCounts office9to17) ≤ 14.
Proof.
  split; [reflexivity|].
  apply (C3_lowest_offset_of_maximal_sum office9to17). reflexivity.
Defined.

(** C4: on every histogram of 24 buckets the median returned is element 12
    of the ascending arrangement of the values; the array that is sorted is
    a new one, the input array is left as it was (and so is every other
    array of the store).  This is not the averaged median: with 12 buckets
    at 0 and 12 at 10 the result is 10, not 5. *)
Theorem C4_median_is_sorted_12 :
  (∀ (σ : store) r counts,
     σ !! r = Some counts → length counts = 24%nat →
     ∃ res σ',
       analyzeHourlyCounts_store r σ = Some (res, σ') ∧
       res = analyzeHourlyCounts counts ∧
       σ' !! r = Some counts ∧
       (∀ r', is_Some (σ !! r') → σ' !! r' = σ !! r') ∧
       (∀ sorted, Sorted Z.le sorted → sorted ≡ₚ counts →
                  median res = sorted !! 12%nat)) ∧
  (length half_busy = 24%nat ∧
   median (analyzeHourlyCounts half_busy) = Some 10 ∧
   Array_sort (λ a b, a - b) half_busy !! 11%nat = Some 0 ∧
   Array_sort (λ a b, a - b) half_busy !! 12%nat = Some 10).
Proof.
  split; [|by vm_compute].
  intros σ r counts Hr Hlen.
  eexists _, _. split; [by apply analyzeHourlyCounts_store_run|].
  split_and!; [done| | |].
  - rewrite lookup_insert_ne; [done|]. apply fresh_not_allocated. eauto.
  - intros r' Hr'. rewrite lookup_insert_ne; [done|]. by apply fresh_not_allocated.
  - intros sorted Hs Hp. by apply median_sorted_12.
Qed.

Lemma C4_median_is_sorted_12_witness :
  ∃ res σ',
    analyzeHourlyCounts_store 1%positive {[ 1%positive := half_busy ]} = Some (res, σ') ∧
    res = analyzeHourlyCounts half_busy ∧
    σ' !! 1%positive = Some half_busy.
Proof.
  destruct (proj1 C4_median_is_sorted_12 {[ 1%positive := half_busy ]} 1%positive half_busy)
    as (res & σ' & Hrun & Hres & Hsame & _).
  - reflexivity.
  - reflexivity.
  - exists res, σ'. split; [exact Hrun|]. split; [exact Hres|exact Hsame].
Defined.

(** ** Totals and bounds *)

Lemma fold_left_add_Zsum l acc : fold_left (λ a b, a + b) l acc = acc + Zsum l.
Proof.
  revert acc. induction l as [|x l IH]; intros acc; simpl; [lia|].
  rewrite IH. lia.
Qed.

Lemma reduce_add_Zsum counts : reduce_add counts = Zsum counts.
Proof. unfold reduce_add. by rewrite fold_left_add_Zsum. Qed.

Lemma map_lookup_seq (l : list Z) :
  map (λ i, default 0 (l !! i)) (seq 0 (length l)) = l.
Proof.
  apply list_eq. intros i.
  change (map ?f ?x) with (f <$> x).
  rewrite list_lookup_fmap.
  destruct (decide (i < length l)%nat) as [Hi|Hi].
  - rewrite lookup_seq_lt by done. simpl.
    destruct (lookup_lt_is_Some_2 l i Hi) as [c Hc]. by rewrite Hc.
  - rewrite lookup_seq_ge by lia. simpl.
    symmetry. apply lookup_ge_None. lia.
Qed.

Lemma Zsum_filter_bounds (g : nat → Z) (keep : nat → bool) l :
  (∀ i, 0 ≤ g i) →
  0 ≤ Zsum (map g (List.filter keep l)) ≤ Zsum (map g l).
Proof.
  intros Hg. induction l as [|i l IH]; simpl; [lia|].
  specialize (Hg i). destruct (keep i); simpl; lia.
Qed.

Lemma daytimeSum_bounds counts offset :
  length counts = 24%nat → Forall (λ c, 0 ≤ c) counts →
  0 ≤ daytimeSum counts offset ≤ Zsum counts.
Proof.
  intros Hlen Hpos. unfold daytimeSum.
  replace (Zsum counts)
    with (Zsum (map (λ i, default 0 (counts !! i)) (seq 0 24)))
    by (by rewrite <- Hlen, map_lookup_seq).
  apply Zsum_filter_bounds. intros i.
  destruct (counts !! i) as [c|] eqn:Hc; simpl; [|lia].
  rewrite Forall_forall in Hpos. apply Hpos.
  by apply list_elem_of_lookup_2 in Hc.
Qed.

Lemma Qdiv_unit_interval s t :
  0 ≤ s ≤ t → t ≠ 0 → (0 <= inject_Z s / inject_Z t <= 1)%Q.
Proof.
  intros Hst Ht.
  assert (Hpos : (0 < inject_Z t)%Q).
  { change 0%Q with (inject_Z 0). rewrite <- Zlt_Qlt. lia. }
  split.
  - apply Qle_shift_div_l; [done|]. rewrite Qmult_0_l.
    change 0%Q with (inject_Z 0). rewrite <- Zle_Qle. lia.
  - apply Qle_shift_div_r; [done|]. rewrite Qmult_1_l.
    rewrite <- Zle_Qle. lia.
Qed.

Lemma gt_half_Rat q : gt_half (Rat q) = true ↔ (1 # 2 < q)%Q.
Proof.
  simpl. rewrite negb_true_iff, <- not_true_iff_false, Qle_bool_iff.
  split; [apply Qnot_le_lt|apply Qlt_not_le].
Qed.

Lemma highBars_count counts m :
  highBars_of counts (Some m) = length (filter (λ c, m * 3 ≤ c) counts).
Proof.
  simpl. induction counts as [|c counts IH]; [done|].
  simpl. rewrite filter_cons.
  destruct (Z.geb_spec c (m * 3)); case_decide; simpl; lia.
Qed.

Lemma median_defined counts :
  length counts = 24%nat → is_Some (median (analyzeHourlyCounts counts)).
Proof.
  intros Hlen. simpl. unfold median_of.
  apply lookup_lt_is_Some_2. rewrite Array_sort_length, Hlen. simpl. lia.
Qed.

(** C5: on every histogram of 24 buckets, with [total] the sum of the
    buckets and [bestScore] the sum of the offset chosen, [ratio] is
    [bestScore / total] when [total <> 0] and [0] when [total = 0];
    [bars_high_over_mult] is the number of buckets with value
    [>= median * 3]; and [passes_rule] is [ratio > 0.5 && highBars >= 3]. *)
Theorem C5_confidence_metrics counts :
  length counts = 24%nat →
  let r := analyzeHourlyCounts counts in
  let total := Zsum counts in
  ∃ s m q,
    bestScore (best_loop counts) = Score s ∧
    s = daytimeSum counts (utc_offset_hours r) ∧
    median r = Some m ∧
    ratio r = Rat q ∧
    (total ≠ 0 → q = (inject_Z s / inject_Z total)%Q) ∧
    (total = 0 → q = 0%Q) ∧
    bars_high_over_mult r = length (filter (λ c, m * 3 ≤ c) counts) ∧
    (passes_rule r = true ↔ (1 # 2 < q)%Q ∧ (3 ≤ bars_high_over_mult r)%nat).
Proof.
  intros Hlen r total.
  destruct (best_loop_spec counts Hlen) as (Hs & _).
  destruct (median_defined counts Hlen) as [m Hm]. fold r in Hm.
  assert (Hratio : ratio r = ratio_of total (Score (daytimeSum counts (utc_offset_hours r)))).
  { unfold r at 1. simpl. by rewrite Hs, reduce_add_Zsum. }
  assert (Hpass : ∀ q, ratio r = Rat q →
            (passes_rule r = true ↔ (1 # 2 < q)%Q ∧ (3 ≤ bars_high_over_mult r)%nat)).
  { intros q Hq.
    change (passes_rule r) with (gt_half (ratio r) && (3 <=? bars_high_over_mult r)%nat).
    by rewrite Hq, andb_true_iff, gt_half_Rat, Nat.leb_le. }
  assert (Hbars : bars_high_over_mult r = length (filter (λ c, m * 3 ≤ c) counts)).
  { change (bars_high_over_mult r) with (highBars_of counts (median r)).
    rewrite Hm. apply highBars_count. }
  unfold ratio_of in Hratio.
  destruct (Z.eqb_spec total 0) as [H0|H0].
  - exists (daytimeSum counts (utc_offset_hours r)), m, 0%Q.
    split_and!; [done..|by intros|done|done|by apply Hpass].
  - exists (daytimeSum counts (utc_offset_hours r)), m,
      (inject_Z (daytimeSum counts (utc_offset_hours r)) / inject_Z total)%Q.
    split_and!; [done..|by intros|done|by apply Hpass].
Qed.

Lemma C5_confidence_metrics_witness :
  length office9to17 = 24%nat ∧
  ∃ s m q,
    bestScore (best_loop office9to17) = Score s ∧
    median (analyzeHourlyCounts office9to17) = Some m ∧
    ratio (analyzeHourlyCounts office9to17) = Rat q.
Proof.
  split; [reflexivity|].
  destruct (C5_confidence_metrics office9to17) as (s & m & q & Hs & _ & Hm & Hq & _).
  - reflexivity.
  - exists s, m, q. split; [exact Hs|]. split; [exact Hm|exact Hq].
Defined.

(** C10: on every histogram of 24 non-negative buckets the first offset
    tried replaces the initial [-Infinity], the score kept satisfies
    [0 <= bestScore <= total], [ratio] lies in [[0, 1]] and
    [utc_offset_hours] lies in [[-12, 14]]. *)
Theorem C10_score_and_ratio_bounds counts :
  length counts = 24%nat → Forall (λ c, 0 ≤ c) counts →
  let r := analyzeHourlyCounts counts in
  bestScore (best_step counts best0 (-12)) = Score (daytimeSum counts (-12)) ∧
  ∃ s q,
    bestScore (best_loop counts) = Score s ∧
    0 ≤ s ≤ Zsum counts ∧
    ratio r = Rat q ∧
    (0 <= q <= 1)%Q ∧
    -12 ≤ utc_offset_hours r ≤ 14.
Proof.
  intros Hlen Hpos r.
  destruct (best_loop_spec counts Hlen) as (Hs & Hr & _).
  pose proof (daytimeSum_bounds counts (utc_offset_hours r) Hlen Hpos) as Hb.
  split.
  { unfold best_step. by rewrite daySum_daytimeSum. }
  assert (Hratio : ratio r = ratio_of (Zsum counts) (Score (daytimeSum counts (utc_offset_hours r)))).
  { unfold r at 1. simpl. by rewrite Hs, reduce_add_Zsum. }
  unfold ratio_of in Hratio.
  destruct (Z.eqb_spec (Zsum counts) 0) as [H0|H0].
  - exists (daytimeSum counts (utc_offset_hours r)), 0%Q.
    split_and!; [done|apply Hb|apply Hb|done|done|done|apply Hr..].
  - exists (daytimeSum counts (utc_offset_hours r)),
      (inject_Z (daytimeSum counts (utc_offset_hours r)) / inject_Z (Zsum counts))%Q.
    split_and!; [done|apply Hb|apply Hb|done| | |apply Hr..];
      by apply Qdiv_unit_interval.
Qed.

Lemma C10_score_and_ratio_bounds_witness :
  length office9to17 = 24%nat ∧ Forall (λ c, 0 ≤ c) office9to17 ∧
  bestScore (best_step office9to17 best0 (-12)) = Score (daytimeSum office9to17 (-12)).
Proof.
  assert (Hpos : Forall (λ c, 0 ≤ c) office9to17).
  { unfold office9to17. rewrite !Forall_app.
    split; [|split]; apply Forall_replicate; lia. }
  split; [reflexivity|]. split; [exact Hpos|].
  apply (C10_score_and_ratio_bounds office9to17); [reflexivity|exact Hpos].
Defined.

(** ** The cache key *)

Lemma before_default_compare x y : before default_compare x y ↔ String.le x y.
Proof.
  unfold before, default_compare, String.le, String.leb.
  destruct (String.compare x y); simpl; split; (done || lia).
Qed.

Lemma before_default_total : Total (before default_compare).
Proof.
  intros x y. rewrite !before_default_compare. unfold String.le.
  destruct (String.leb_total x y) as [->| ->]; [by left|by right].
Qed.

Lemma before_default_trans : Transitive (before default_compare).
Proof.
  intros x y z. rewrite !before_default_compare.
  apply (@transitivity _ String.le _).
Qed.

Lemma before_default_antisymm : AntiSymm (=) (before default_compare).
Proof.
  intros x y. rewrite !before_default_compare.
  apply (anti_symm String.le).
Qed.

(** [sort()] gives one result for all arrangements of the same strings. *)
Lemma Array_sort_default_perm (l1 l2 : list string) :
  l1 ≡ₚ l2 → Array_sort default_compare l1 = Array_sort default_compare l2.
Proof.
  intros Hp. unfold Array_sort.
  apply (@Sorted_unique _ _ before_default_trans before_default_antisymm).
  - apply (@Sorted_merge_sort _ _ _ before_default_total).
  - apply (@Sorted_merge_sort _ _ _ before_default_total).
  - by rewrite !merge_sort_Permutation.
Qed.

(** C6 (as amended): the cache key is a function of the lower-cased
    addresses up to order, counted with their multiplicity: two lists whose
    lower-cased addresses are arrangements of each other have the same key,
    so the key is insensitive to order and to letter case, and two lists
    without repeated addresses that denote the same set up to case have
    the same key. *)
Theorem C6_cache_key_canonical (l1 l2 : list string) :
  (map toLowerCase l1 ≡ₚ map toLowerCase l2 → cacheKey l1 = cacheKey l2) ∧
  (NoDup (map toLowerCase l1) → NoDup (map toLowerCase l2) →
   (∀ a, a ∈ map toLowerCase l1 ↔ a ∈ map toLowerCase l2) →
   cacheKey l1 = cacheKey l2).
Proof.
  assert (Hperm : map toLowerCase l1 ≡ₚ map toLowerCase l2 → cacheKey l1 = cacheKey l2).
  { intros Hp. unfold cacheKey. by rewrite (Array_sort_default_perm _ _ Hp). }
  split; [exact Hperm|].
  intros Hd1 Hd2 Hset. by apply Hperm, NoDup_Permutation.
Qed.

Lemma C6_cache_key_canonical_witness :
  map toLowerCase ["0xABC"; "0xdef"] ≡ₚ map toLowerCase ["0xdef"; "0xabc"] ∧
  cacheKey ["0xABC"; "0xdef"] = cacheKey ["0xdef"; "0xabc"].
Proof.
  assert (Hp : map toLowerCase ["0xABC"; "0xdef"] ≡ₚ map toLowerCase ["0xdef"; "0xabc"]).
  { simpl. apply perm_swap. }
  split; [exact Hp|].
  exact (proj1 (C6_cache_key_canonical ["0xABC"; "0xdef"] ["0xdef"; "0xabc"]) Hp).
Defined.

(** C6 as stated fails: a list and the same list with an address repeated
    denote the same set of addresses and have different keys. *)
Lemma C6_counterexample :
  (∀ a, a ∈ map toLowerCase ["0xabc"] ↔ a ∈ map toLowerCase ["0xabc"; "0xabc"]) ∧
  cacheKey ["0xabc"] ≠ cacheKey ["0xabc"; "0xabc"].
Proof.
  split; [|by vm_compute].
  intros a. simpl. rewrite !elem_of_cons. tauto.
Qed.

(** ** The accumulator *)

Lemma getUTCHours_lt ts : (getUTCHours ts < 24)%nat.
Proof.
  unfold getUTCHours.
  pose proof (Z.mod_pos_bound (ts / 3600000) 24). lia.
Qed.

Lemma event_outcome_hour f ev h : event_outcome f ev = Count h → (h < 24)%nat.
Proof.
  unfold event_outcome. intros Hev.
  repeat case_match; simplify_eq; apply getUTCHours_lt.
Qed.

(** The rule of the code, spelled out. *)
Lemma keeps_spelled_out f ev :
  keeps f ev = true ↔
    ∃ ts, block_time ev = Some ts ∧
          (filter_given f = false ∨
           truthy (wallet_address ev) = false ∨
           ∃ s, wallet_address ev = Str s ∧ Some (toLowerCase s) = f).
Proof.
  unfold keeps, event_outcome.
  destruct (block_time ev) as [ts|]; [|split; [done|by intros (? & ? & _)]].
  destruct (filter_given f); simpl.
  2:{ split; [|done]. intros _. exists ts. auto. }
  destruct (wallet_address ev) as [|s|[|]] eqn:Hw; simpl.
  - split; [|done]. intros _. exists ts. auto.
  - destruct (negb (String.eqb s "")) eqn:Hs.
    + case_bool_decide as Hf.
      * split; [done|]. intros (_ & _ & [?|[?|(s' & ? & ?)]]); [done..|]. congruence.
      * split; [|done]. intros _. exists ts. split; [done|].
        right. right. exists s. split; [done|]. by destruct (decide (Some (toLowerCase s) = f)).
    + split; [|done]. intros _. exists ts. auto.
  - split; [done|]. intros (_ & _ & [?|[?|(s' & ? & ?)]]); done.
  - split; [|done]. intros _. exists ts. auto.
Qed.

Lemma increment_in_range counts24 h c :
  counts24 !! h = Some c → increment counts24 h = <[h := c + 1]> counts24.
Proof. unfold increment. by intros ->. Qed.

Lemma counted_at_cons f h ev activity :
  counted_at f h (ev :: activity) =
    (if decide (event_outcome f ev = Count h) then 1 else 0) + counted_at f h activity.
Proof.
  unfold counted_at. rewrite filter_cons.
  case_decide; simpl length; lia.
Qed.

Lemma accumulate_lookup f activity counts24 :
  length counts24 = 24%nat →
  length (accumulateHoursFromActivity counts24 activity f) = 24%nat ∧
  ∀ h c, counts24 !! h = Some c →
         accumulateHoursFromActivity counts24 activity f !! h
           = Some (c + counted_at f h activity).
Proof.
  revert counts24. induction activity as [|ev activity IH]; intros counts24 Hlen.
  { split; [done|]. intros h c Hc. simpl. rewrite Hc. f_equal.
    unfold counted_at. simpl. lia. }
  unfold accumulateHoursFromActivity. simpl fold_left.
  fold (accumulateHoursFromActivity (accumulate_step f counts24 ev) activity f).
  unfold accumulate_step.
  destruct (event_outcome f ev) as [|h'|] eqn:Hev.
  - destruct (IH counts24 Hlen) as [Hl Hc]. split; [done|].
    intros h c Hh. rewrite (Hc h c Hh), counted_at_cons, Hev.
    rewrite decide_False by done. f_equal.
  - pose proof (event_outcome_hour f ev h' Hev) as Hh'.
    destruct (lookup_lt_is_Some_2 counts24 h') as [c' Hc']; [lia|].
    rewrite (increment_in_range _ _ _ Hc').
    destruct (IH (<[h' := c' + 1]> counts24)) as [Hl Hc].
    { by rewrite length_insert. }
    split; [done|].
    intros h c Hh. rewrite counted_at_cons, Hev.
    destruct (decide (h' = h)) as [->|Hne].
    + rewrite decide_True by done.
      rewrite (Hc h (c + 1)); [f_equal; lia|].
      rewrite list_lookup_insert_eq by (by eapply lookup_lt_Some). congruence.
    + rewrite decide_False by congruence.
      rewrite (Hc h c); [f_equal|].
      by rewrite list_lookup_insert_ne.
  - destruct (IH counts24 Hlen) as [Hl Hc]. split; [done|].
    intros h c Hh. rewrite (Hc h c Hh), counted_at_cons, Hev.
    rewrite decide_False by done. f_equal.
Qed.

Lemma counted_at_perm f h activity activity' :
  activity ≡ₚ activity' → counted_at f h activity = counted_at f h activity'.
Proof. intros Hp. unfold counted_at. by rewrite Hp. Qed.

(** C8 (as amended): on a histogram of 24 buckets, an event is dropped when
    its [block_time] does not parse, or when a non-empty filter is given and
    the event has a truthy [wallet_address] that is not a string whose lower
    case is the filter; an event without address (absent or empty) is
    counted whatever the filter.  Every other event adds exactly 1 to the
    bucket of its UTC hour and changes no other bucket, and the histogram
    obtained is the same for every ordering of the events. *)
Theorem C8_accumulator counts24 activity filterAddrLower :
  length counts24 = 24%nat →
  (∀ ev, keeps filterAddrLower ev = true ↔
     ∃ ts, block_time ev = Some ts ∧
           (filter_given filterAddrLower = false ∨
            truthy (wallet_address ev) = false ∨
            ∃ s, wallet_address ev = Str s ∧ Some (toLowerCase s) = filterAddrLower)) ∧
  (∀ ev, keeps filterAddrLower ev = false →
         accumulate_step filterAddrLower counts24 ev = counts24) ∧
  (∀ ev ts, keeps filterAddrLower ev = true → block_time ev = Some ts →
     ∃ c, counts24 !! getUTCHours ts = Some c ∧
          accumulate_step filterAddrLower counts24 ev
            = <[getUTCHours ts := c + 1]> counts24) ∧
  length (accumulateHoursFromActivity counts24 activity filterAddrLower) = 24%nat ∧
  (∀ h c, counts24 !! h = Some c →
     accumulateHoursFromActivity counts24 activity filterAddrLower !! h
       = Some (c + counted_at filterAddrLower h activity)) ∧
  (∀ activity', activity ≡ₚ activity' →
     accumulateHoursFromActivity counts24 activity' filterAddrLower
       = accumulateHoursFromActivity counts24 activity filterAddrLower).
Proof.
  intros Hlen.
  destruct (accumulate_lookup filterAddrLower activity counts24 Hlen) as [Hl Hc].
  split_and!; [| | |done|done|].
  - intros ev. apply keeps_spelled_out.
  - intros ev. unfold keeps, accumulate_step.
    by destruct (event_outcome filterAddrLower ev).
  - intros ev ts. unfold keeps, accumulate_step.
    destruct (event_outcome filterAddrLower ev) as [|h|] eqn:Hev; [done| |done].
    intros _ Hts.
    assert (h = getUTCHours ts) as ->.
    { unfold event_outcome in Hev. rewrite Hts in Hev.
      repeat case_match; congruence. }
    destruct (lookup_lt_is_Some_2 counts24 (getUTCHours ts)) as [c Hcc].
    { pose proof (getUTCHours_lt ts). lia. }
    exists c. split; [done|]. by apply increment_in_range.
  - intros activity' Hp.
    destruct (accumulate_lookup filterAddrLower activity' counts24 Hlen) as [Hl' Hc'].
    apply list_eq. intros h.
    destruct (counts24 !! h) as [c|] eqn:Hh.
    + rewrite (Hc h c Hh), (Hc' h c Hh). f_equal. f_equal.
      symmetry. by apply counted_at_perm.
    + apply lookup_ge_None in Hh.
      rewrite !(proj2 (lookup_ge_None _ _)); [done|lia..].
Qed.

Lemma C8_accumulator_witness :
  length zeros24 = 24%nat ∧
  length (accumulateHoursFromActivity zeros24 [anonymous_event] (Some "0xabc")) = 24%nat.
Proof.
  split; [reflexivity|].
  apply (C8_accumulator zeros24 [anonymous_event] (Some "0xabc")). reflexivity.
Defined.

(** C8 as stated fails: with the filter "0xabc", an event whose address is
    the empty string does not match the filter and is counted all the same. *)
Lemma C8_counterexample :
  spec_discards (Some "0xabc") anonymous_event = true ∧
  accumulateHoursFromActivity zeros24 [anonymous_event] (Some "0xabc") ≠ zeros24.
Proof. split; [reflexivity|]. by vm_compute. Qed.

(** ** The worker pool *)

Lemma in_flight_insert ws i w w' :
  ws !! i = Some w →
  ∃ rest, in_flight ws ≡ₚ awaited w ++ rest ∧
          in_flight (<[i := w']> ws) ≡ₚ awaited w' ++ rest.
Proof.
  unfold in_flight. revert i.
  induction ws as [|x ws IH]; intros i Hi; [by destruct i|].
  destruct i as [|i].
  - injection Hi as ->. exists (ws ≫= awaited).
    change (<[0%nat := w']> (w :: ws)) with (w' :: ws). by rewrite !bind_cons.
  - change ((x :: ws) !! S i) with (ws !! i) in Hi.
    change (<[S i := w']> (x :: ws)) with (x :: <[i := w']> ws).
    destruct (IH i Hi) as (rest & H1 & H2).
    exists (awaited x ++ rest). rewrite !bind_cons, H1, H2.
    split; by rewrite !(assoc_L (++)), (comm (++) (awaited x)).
Qed.

Lemma elem_of_insert_inv {A} (l : list A) i x y :
  y ∈ <[i := x]> l → y = x ∨ y ∈ l.
Proof.
  intros [j Hj]%list_elem_of_lookup_1.
  apply list_lookup_insert_Some in Hj as [(_ & -> & _)|[_ Hj]]; [by left|].
  right. by eapply list_elem_of_lookup_2.
Qed.

Lemma step_pool_inv addresses n p p' :
  pool_inv addresses n p → step p p' → pool_inv addresses n p'.
Proof.
  intros (Hperm & Hlen & Hret) Hstep.
  destruct Hstep as [i q a ws rs fs Hi|i q a pages ws rs fs Hi|i ws rs fs Hi];
    simpl in *.
  - destruct (in_flight_insert ws i AtLoop (Awaiting a) Hi) as (rest' & H1 & H2).
    split_and!; simpl.
    + rewrite Hperm, H1, H2. simpl. rewrite <- app_assoc. reflexivity.
    + by rewrite length_insert.
    + intros [?|Hin]%elem_of_insert_inv; [done|].
      specialize (Hret Hin). by destruct q.
  - destruct (in_flight_insert ws i (Awaiting a) AtLoop Hi) as (rest' & H1 & H2).
    split_and!; simpl.
    + rewrite Hperm, H1, H2, map_app. simpl.
      apply Permutation_app_head.
      rewrite (app_assoc rest'). apply Permutation_cons_append.
    + by rewrite length_insert.
    + intros [?|Hin]%elem_of_insert_inv; [done|]. by apply Hret.
  - destruct (in_flight_insert ws i AtLoop Returned Hi) as (rest' & H1 & H2).
    split_and!; simpl.
    + by rewrite Hperm, H1, H2.
    + by rewrite length_insert.
    + done.
Qed.

Lemma steps_pool_inv addresses n p p' :
  pool_inv addresses n p → rtc step p p' → pool_inv addresses n p'.
Proof. intros Hinv Hsteps. induction Hsteps; eauto using step_pool_inv. Qed.

Lemma in_flight_replicate_AtLoop n : in_flight (replicate n AtLoop) = [].
Proof.
  unfold in_flight. induction n as [|n IH]; [done|].
  change (replicate (S n) AtLoop) with (AtLoop :: replicate n AtLoop).
  by rewrite bind_cons, IH.
Qed.

Lemma in_flight_settled ws : Forall (λ w, w = Returned) ws → in_flight ws = [].
Proof.
  unfold in_flight. induction 1 as [|w ws -> _ IH]; [done|]. by rewrite bind_cons, IH.
Qed.

Lemma workerCount_pos WORKERS addresses : 1 ≤ WORKERS → 1 ≤ workerCount WORKERS addresses.
Proof. intros. unfold workerCount. lia. Qed.

Lemma start_pool_inv WORKERS addresses :
  pool_inv addresses (Z.to_nat (workerCount WORKERS addresses)) (start WORKERS addresses).
Proof.
  unfold start. split_and!; simpl.
  - by rewrite in_flight_replicate_AtLoop, !(right_id_L [] (++)).
  - by rewrite length_replicate.
  - by intros [? _]%elem_of_replicate.
Qed.

(** When [Promise.all] resolves, the results hold the requested addresses,
    each as often as requested. *)
Lemma settled_results WORKERS addresses p :
  1 ≤ WORKERS →
  rtc step (start WORKERS addresses) p → settled p →
  map address (results p) ≡ₚ addresses.
Proof.
  intros HW Hsteps Hset.
  destruct (steps_pool_inv _ _ _ _ (start_pool_inv WORKERS addresses) Hsteps)
    as (Hperm & Hlen & Hret).
  pose proof (workerCount_pos WORKERS addresses HW) as Hn.
  rewrite (in_flight_settled _ Hset) in Hperm.
  rewrite Hret in Hperm; [done|].
  unfold settled in Hset.
  destruct (workers p) as [|w ws]; [simpl in Hlen; lia|].
  apply Forall_cons in Hset as [-> _]. apply list_elem_of_here.
Qed.

(** One worker can empty the queue by itself. *)
Lemma one_worker_drains q ws rs fs :
  ws !! 0%nat = Some AtLoop →
  ∃ rs' fs', rtc step (Pool q ws rs fs) (Pool [] ws rs' fs').
Proof.
  intros H0. revert rs fs.
  induction q as [|a q IH] using rev_ind; intros rs fs.
  { exists rs, fs. done. }
  destruct (IH (rs ++ [{| address := a;
                           analysis := analyzeHourlyCounts (fetchAddressHistogramSIM a []) |}])
               (fs ++ [a])) as (rs' & fs' & Hrun).
  exists rs', fs'.
  eapply rtc_l; [by apply (step_pop 0)|].
  eapply rtc_l.
  { apply (step_push 0 q a []). apply list_lookup_insert_eq. by eapply lookup_lt_Some. }
  rewrite list_insert_insert_eq, (list_insert_id ws 0 AtLoop H0).
  exact Hrun.
Qed.

(** With the queue empty, the workers return one after the other. *)
Lemma workers_return back n rs fs :
  rtc step (Pool [] (back ++ replicate n AtLoop) rs fs)
           (Pool [] (back ++ replicate n Returned) rs fs).
Proof.
  revert back. induction n as [|n IH]; intros back; [done|].
  eapply rtc_l.
  - apply (step_return (length back)). by apply list_lookup_middle.
  - replace (<[length back := Returned]> (back ++ replicate (S n) AtLoop))
      with ((back ++ [Returned]) ++ replicate n AtLoop).
    + replace (back ++ replicate (S n) Returned)
        with ((back ++ [Returned]) ++ replicate n Returned)
        by (by rewrite <- (assoc_L (++))).
      apply IH.
    + rewrite <- (assoc_L (++)). simpl.
      replace (length back) with (length back + 0)%nat at 1 by lia.
      by rewrite insert_app_r.
Qed.

(** The pool always has a run on which [Promise.all] resolves. *)
Lemma pool_can_settle WORKERS addresses :
  1 ≤ WORKERS →
  ∃ p, rtc step (start WORKERS addresses) p ∧ settled p.
Proof.
  intros HW. pose proof (workerCount_pos WORKERS addresses HW) as Hn.
  unfold start.
  destruct (Z.to_nat (workerCount WORKERS addresses)) as [|n] eqn:Hk; [lia|].
  destruct (one_worker_drains addresses (replicate (S n) AtLoop) [] [])
    as (rs & fs & Hrun); [done|].
  exists (Pool [] (replicate (S n) Returned) rs fs). split.
  - etrans; [exact Hrun|]. apply (workers_return [] (S n)).
  - unfold settled. by apply (Forall_replicate _ (S n)).
Qed.

(** Every turn brings the pool closer to the end, and a pool that has not
    settled can take a turn: every run ends, with [Promise.all] resolved. *)
Lemma weight_insert ws i w w' :
  ws !! i = Some w →
  (sum_list_with worker_weight (<[i := w']> ws) + worker_weight w
   = sum_list_with worker_weight ws + worker_weight w')%nat.
Proof.
  revert i. induction ws as [|x ws IH]; intros i Hi; [by destruct i|].
  destruct i as [|i]; simpl in *.
  - injection Hi as ->. lia.
  - specialize (IH i Hi). lia.
Qed.

Lemma step_measure p p' : step p p' → (pool_measure p' < pool_measure p)%nat.
Proof.
  intros Hstep. unfold pool_measure.
  destruct Hstep as [i q a ws rs fs Hi|i q a pages ws rs fs Hi|i ws rs fs Hi]; simpl.
  - pose proof (weight_insert ws i AtLoop (Awaiting a) Hi) as Hw.
    rewrite length_app. simpl in *. lia.
  - pose proof (weight_insert ws i (Awaiting a) AtLoop Hi) as Hw. simpl in *. lia.
  - pose proof (weight_insert ws i AtLoop Returned Hi) as Hw. simpl in *. lia.
Qed.

Lemma pool_progress p : ¬ settled p → ∃ p', step p p'.
Proof.
  destruct p as [q ws rs fs]. unfold settled. simpl.
  intros Hnot. apply not_Forall_Exists in Hnot; [|apply _].
  apply Exists_exists in Hnot as (w & Hin & Hw).
  apply list_elem_of_lookup_1 in Hin as [i Hi].
  simpl in Hw. destruct w as [|a|]; [| |by destruct Hw].
  - destruct q as [|a q _] using rev_ind.
    + eexists. by apply (step_return i).
    + eexists. by apply (step_pop i).
  - eexists. by apply (step_push i q a []).
Qed.

(** ** The handler *)

Lemma entries_for_length a rs :
  length (entries_for a rs) = length (filter (λ x, x = a) (map address rs)).
Proof.
  unfold entries_for. induction rs as [|e rs IH]; [done|].
  simpl map. rewrite !filter_cons. repeat case_decide; simpl; (done || lia).
Qed.

Lemma filter_absent (a : string) l : a ∉ l → filter (λ x, x = a) l = [].
Proof.
  induction l as [|x l IH]; [done|].
  intros Hnot. rewrite filter_cons.
  rewrite decide_False by (intros ->; apply Hnot, list_elem_of_here).
  apply IH. intros Hin. apply Hnot. by apply list_elem_of_further.
Qed.

Lemma NoDup_once (a : string) l :
  NoDup l → a ∈ l → length (filter (λ x, x = a) l) = 1%nat.
Proof.
  induction 1 as [|x l Hx Hnd IH]; [by intros ?%elem_of_nil|].
  rewrite filter_cons. intros [->|Hin]%elem_of_cons.
  - rewrite decide_True by done. simpl. by rewrite filter_absent.
  - rewrite decide_False by (intros ->; done). by apply IH.
Qed.

(** C7 (as amended): with a worker limit of at least 1, a request with a
    non-empty address list that misses the cache is answered, and in every
    answer each occurrence of an address in the request has exactly one
    entry: the addresses of the results are the requested addresses up to
    order, repeated as often as requested.  For a list without repeated
    addresses each address has exactly one entry. *)
Theorem C7_one_entry_per_requested_address WORKERS cache addresses :
  1 ≤ WORKERS → addresses ≠ [] → cache !! cacheKey addresses = None →
  (∃ resp cache' effects, handler WORKERS cache (Array addresses) resp cache' effects) ∧
  ∀ resp cache' effects,
    handler WORKERS cache (Array addresses) resp cache' effects →
    ∃ rs, resp = Json rs ∧
          map address rs ≡ₚ addresses ∧
          (∀ a, length (entries_for a rs) = length (filter (λ x, x = a) addresses)) ∧
          (NoDup addresses → ∀ a, a ∈ addresses → length (entries_for a rs) = 1%nat).
Proof.
  intros HW Hne Hmiss.
  assert (Hacc : accepted (Array addresses) = Some addresses) by (by destruct addresses).
  split.
  - destruct (pool_can_settle WORKERS addresses HW) as (p & Hrun & Hset).
    eexists _, _, _. by eapply handler_miss.
  - intros resp cache' effects Hrun.
    destruct Hrun as [Hrej|addresses' cached Hacc' Hhit|addresses' p Hacc' _ Hsteps Hset];
      [congruence|congruence|].
    assert (addresses' = addresses) as -> by congruence.
    pose proof (settled_results WORKERS addresses p HW Hsteps Hset) as Hperm.
    assert (Hcount : ∀ a, length (entries_for a (results p))
                          = length (filter (λ x, x = a) addresses)).
    { intros a. by rewrite entries_for_length, Hperm. }
    exists (results p). split_and!; [done..|].
    intros Hnd a Ha. rewrite Hcount. by apply NoDup_once.
Qed.

Lemma C7_one_entry_per_requested_address_witness :
  1 ≤ 5 ∧ ["0xabc"; "0xdef"] ≠ [] ∧
  (∅ : gmap string (list entry)) !! cacheKey ["0xabc"; "0xdef"] = None ∧
  ∃ resp cache' effects, handler 5 ∅ (Array ["0xabc"; "0xdef"]) resp cache' effects.
Proof.
  split; [lia|]. split; [discriminate|]. split; [reflexivity|].
  apply (C7_one_entry_per_requested_address 5 ∅ ["0xabc"; "0xdef"]);
    [lia|discriminate|reflexivity].
Defined.

(** C7 as stated fails: for the request ["0xabc", "0xabc"], one distinct
    address, there is an answer with two entries for it. *)
Lemma C7_counterexample :
  ∃ rs cache' effects,
    handler 5 ∅ (Array ["0xabc"; "0xabc"]) (Json rs) cache' effects ∧
    length (entries_for "0xabc" rs) = 2%nat.
Proof.
  set (a := "0xabc").
  set (p := Pool [] [Returned] [silent_entry a; silent_entry a] [a; a]).
  exists (results p), (<[cacheKey [a; a] := results p]> ∅),
    (CacheGet (cacheKey [a; a]) :: map Fetch (fetches p)
       ++ [CacheSet (cacheKey [a; a]) (results p)]).
  split; [|by vm_compute].
  apply (handler_miss 5 ∅ (Array [a; a]) [a; a] p); [done|done| |].
  - change (start 5 [a; a]) with (Pool [a; a] [AtLoop] [] []).
    eapply rtc_l; [exact (step_pop 0 [a] a [AtLoop] [] [] eq_refl)|].
    eapply rtc_l; [exact (step_push 0 [a] a [] [Awaiting a] [] [a] eq_refl)|].
    eapply rtc_l; [exact (step_pop 0 [] a [AtLoop] [silent_entry a] [a] eq_refl)|].
    eapply rtc_l;
      [exact (step_push 0 [] a [] [Awaiting a] [silent_entry a] [a; a] eq_refl)|].
    eapply rtc_l;
      [exact (step_return 0 [AtLoop] [silent_entry a; silent_entry a] [a; a] eq_refl)|].
    reflexivity.
  - unfold settled. simpl. by repeat constructor.
Qed.

(** C9: when the [addresses] field is not a list or is the empty list, the
    handler answers with status 400 and does nothing else: every run has
    that response, leaves the cache as it was and has no effect, neither a
    cache read or write nor a fetch; and there is such a run. *)
Theorem C9_rejects_before_any_effect WORKERS cache body :
  body = NotArray ∨ body = Array [] →
  handler WORKERS cache body (Status400 "addresses array required") cache [] ∧
  ∀ resp cache' effects,
    handler WORKERS cache body resp cache' effects →
    resp = Status400 "addresses array required" ∧ cache' = cache ∧ effects = [].
Proof.
  intros Hbody.
  assert (Hrej : accepted body = None) by (by destruct Hbody as [-> | ->]).
  split; [by apply handler_reject|].
  intros resp cache' effects Hrun.
  destruct Hrun; [done|congruence..].
Qed.

Lemma C9_rejects_before_any_effect_witness :
  (Array [] = NotArray ∨ Array [] = Array []) ∧
  handler 5 ∅ (Array []) (Status400 "addresses array required") ∅ [].
Proof.
  assert (Hbody : Array [] = NotArray ∨ Array [] = Array []) by (right; reflexivity).
  split; [exact Hbody|].
  apply (C9_rejects_before_any_effect 5 ∅ (Array []) Hbody).
Defined.

(** * Further properties of the scorer *)

Lemma in_window_period offset i : in_window (offset + 24) i = in_window offset i.
Proof.
  unfold in_window.
  replace (Z.of_nat i + (offset + 24)) with (Z.of_nat i + offset + 1 * 24) by lia.
  by rewrite Z_mod_plus_full.
Qed.

Lemma daytimeSum_period counts offset :
  daytimeSum counts (offset + 24) = daytimeSum counts offset.
Proof.
  unfold daytimeSum. do 2 f_equal.
  apply List.filter_ext. intros i. apply in_window_period.
Qed.

Lemma offset_below_12 counts :
  length counts = 24%nat → -12 ≤ bestOffset (best_loop counts) ≤ 11.
Proof.
  intros Hlen.
  destruct (best_loop_spec counts Hlen) as (_ & Hr & _ & Hfirst).
  split; [lia|].
  destruct (decide (bestOffset (best_loop counts) ≤ 11)) as [|Hbig]; [done|].
  specialize (Hfirst (bestOffset (best_loop counts) - 24)).
  rewrite <- (daytimeSum_period counts (bestOffset (best_loop counts) - 24)) in Hfirst.
  replace (bestOffset (best_loop counts) - 24 + 24)
    with (bestOffset (best_loop counts)) in Hfirst by lia.
  lia.
Qed.

(** X1: on every histogram of 24 buckets the offset returned lies in
    [[-12, 11]]: the offsets 12, 13 and 14 have the sums of -12, -11 and -10,
    which are tried before them, so they and their zones are never returned. *)
Theorem X1_offsets_12_to_14_never_returned counts :
  length counts = 24%nat →
  let r := analyzeHourlyCounts counts in
  -12 ≤ utc_offset_hours r ≤ 11 ∧
  iana_tz_example r ∉ ["Pacific/Auckland"; "Pacific/Tongatapu"; "Pacific/Kiritimati"].
Proof.
  intros Hlen r.
  pose proof (offset_below_12 counts Hlen) as Hr.
  split; [exact Hr|].
  change (iana_tz_example r) with (exampleTz (bestOffset (best_loop counts))).
  assert (Hall : Forall (λ o, exampleTz o ∉
            ["Pacific/Auckland"; "Pacific/Tongatapu"; "Pacific/Kiritimati"])
            (seqZ (-12) 24)).
  { apply (bool_decide_unpack _). by vm_compute. }
  rewrite Forall_forall in Hall. apply Hall, elem_of_seqZ. lia.
Qed.

Lemma X1_offsets_12_to_14_never_returned_witness :
  length half_busy = 24%nat ∧
  -12 ≤ utc_offset_hours (analyzeHourlyCounts half_busy) ≤ 11.
Proof.
  split; [reflexivity|].
  apply (X1_offsets_12_to_14_never_returned half_busy). reflexivity.
Defined.

(** ** Scaling the histogram *)

Lemma Zsum_scale k l : Zsum (map (Z.mul k) l) = k * Zsum l.
Proof. induction l as [|x l IH]; simpl; [lia|]. rewrite IH. lia. Qed.

Lemma daytimeSum_scale k counts offset :
  daytimeSum (map (Z.mul k) counts) offset = k * daytimeSum counts offset.
Proof.
  unfold daytimeSum.
  induction (List.filter (in_window offset) (seq 0 24)) as [|i l IH]; simpl; [lia|].
  rewrite IH. change (map (Z.mul k) counts) with (Z.mul k <$> counts).
  rewrite list_lookup_fmap. destruct (counts !! i); simpl; lia.
Qed.

Lemma best_offset_scale k counts :
  0 < k → length counts = 24%nat →
  bestOffset (best_loop (map (Z.mul k) counts)) = bestOffset (best_loop counts).
Proof.
  intros Hk Hlen.
  assert (Hlen' : length (map (Z.mul k) counts) = 24%nat) by (by rewrite length_map).
  destruct (best_loop_spec counts Hlen) as (_ & Hr & Hmax & Hfirst).
  destruct (best_loop_spec _ Hlen') as (_ & Hr' & Hmax' & Hfirst').
  set (o := bestOffset (best_loop counts)) in *.
  set (o' := bestOffset (best_loop (map (Z.mul k) counts))) in *.
  destruct (Z.lt_trichotomy o' o) as [Hlt|[Heq|Hgt]]; [|done|].
  - specialize (Hfirst o'). specialize (Hmax' o).
    rewrite !daytimeSum_scale in Hmax'. nia.
  - specialize (Hfirst' o). specialize (Hmax o').
    rewrite !daytimeSum_scale in Hfirst'. nia.
Qed.

Lemma Array_sort_minus_sorted counts : Sorted Z.le (Array_sort (λ a b, a - b) counts).
Proof.
  eapply Sorted_weaken; [|apply (@Sorted_merge_sort _ _ _ before_minus_total)].
  intros x y. by rewrite before_minus.
Qed.

Lemma Array_sort_perm {A} (cmp : A → A → Z) a : Array_sort cmp a ≡ₚ a.
Proof. apply merge_sort_Permutation. Qed.

Lemma Array_sort_scale k counts :
  0 ≤ k →
  Array_sort (λ a b, a - b) (map (Z.mul k) counts)
  = map (Z.mul k) (Array_sort (λ a b, a - b) counts).
Proof.
  intros Hk. apply Array_sort_minus_unique.
  - apply (Sorted_fmap _ Z.le Z.le); [|apply Array_sort_minus_sorted].
    intros x y Hxy. nia.
  - change (map (Z.mul k)) with (fmap (M:=list) (Z.mul k)).
    by rewrite Array_sort_perm.
Qed.

(** [ratio > 0.5], on integers. *)
Lemma half_lt_div s t :
  t ≠ 0 → (1 # 2 < inject_Z s / inject_Z t)%Q ↔ 0 < (2 * s - t) * t.
Proof.
  intros Ht. unfold Qlt, Qdiv, Qmult, Qinv, inject_Z. simpl.
  destruct t as [|p|p]; [done|simpl; nia|simpl; nia].
Qed.

Lemma gt_half_ratio_of t s :
  gt_half (ratio_of t (Score s)) = true ↔ 0 < (2 * s - t) * t.
Proof.
  unfold ratio_of. destruct (Z.eqb_spec t 0) as [->|Ht].
  - split; [by vm_compute|lia].
  - unfold js_div. by rewrite gt_half_Rat, half_lt_div.
Qed.

Lemma highBars_scale k counts m :
  0 < k →
  highBars_of (map (Z.mul k) counts) (Some (k * m)) = highBars_of counts (Some m).
Proof.
  intros Hk. simpl. induction counts as [|c counts IH]; [done|]. simpl.
  destruct (Z.geb_spec (k * c) (k * m * 3)), (Z.geb_spec c (m * 3));
    simpl; (lia || nia).
Qed.

(** X2: multiplying every bucket of a 24-bucket histogram by the same
    positive factor changes neither the offset returned nor
    [bars_high_over_mult] nor [passes_rule]; the median is multiplied by the
    factor. *)
Theorem X2_scaling_the_counts k counts :
  0 < k → length counts = 24%nat →
  let r := analyzeHourlyCounts counts in
  let r' := analyzeHourlyCounts (map (Z.mul k) counts) in
  utc_offset_hours r' = utc_offset_hours r ∧
  iana_tz_example r' = iana_tz_example r ∧
  median r' = Z.mul k <$> median r ∧
  bars_high_over_mult r' = bars_high_over_mult r ∧
  passes_rule r' = passes_rule r.
Proof.
  intros Hk Hlen r r'.
  assert (Hlen' : length (map (Z.mul k) counts) = 24%nat) by (by rewrite length_map).
  pose proof (best_offset_scale k counts Hk Hlen) as Ho.
  assert (Hmed : median r' = Z.mul k <$> median r).
  { unfold r', r. simpl. unfold median_of.
    rewrite Array_sort_scale by lia.
    change (map (Z.mul k)) with (fmap (M:=list) (Z.mul k)).
    by rewrite length_fmap, list_lookup_fmap. }
  assert (Hbars : bars_high_over_mult r' = bars_high_over_mult r).
  { change (bars_high_over_mult r')
      with (highBars_of (map (Z.mul k) counts) (median r')).
    change (bars_high_over_mult r) with (highBars_of counts (median r)).
    rewrite Hmed. destruct (median_defined counts Hlen) as [m Hm]. fold r in Hm.
    rewrite Hm. by apply highBars_scale. }
  split_and!; [exact Ho|unfold r', r; simpl; by rewrite Ho|exact Hmed|exact Hbars|].
  change (passes_rule r') with (gt_half (ratio r') && (3 <=? bars_high_over_mult r')%nat).
  change (passes_rule r) with (gt_half (ratio r) && (3 <=? bars_high_over_mult r)%nat).
  rewrite Hbars. f_equal.
  destruct (best_loop_spec counts Hlen) as (Hs & _).
  destruct (best_loop_spec _ Hlen') as (Hs' & _).
  unfold r', r. simpl. rewrite Hs, Hs', Ho, daytimeSum_scale.
  rewrite !reduce_add_Zsum, Zsum_scale.
  apply eq_true_iff_eq. rewrite !gt_half_ratio_of.
  split; intros; nia.
Qed.

Lemma X2_scaling_the_counts_witness :
  0 < 3 ∧ length office9to17 = 24%nat ∧
  utc_offset_hours (analyzeHourlyCounts (map (Z.mul 3) office9to17))
  = utc_offset_hours (analyzeHourlyCounts office9to17).
Proof.
  split; [lia|]. split; [reflexivity|].
  apply (X2_scaling_the_counts 3 office9to17); [lia|reflexivity].
Defined.

(** X3: on a histogram of 24 non-negative buckets, [passes_rule] holds
    exactly when more than half of all events fall in the window of the
    offset chosen ([total < 2 * bestScore]) and at least 3 buckets reach
    three times the median; a histogram without events never passes. *)
Theorem X3_passes_rule_on_integers counts :
  length counts = 24%nat → Forall (λ c, 0 ≤ c) counts →
  let r := analyzeHourlyCounts counts in
  (passes_rule r = true ↔
     Zsum counts < 2 * daytimeSum counts (utc_offset_hours r) ∧
     (3 ≤ bars_high_over_mult r)%nat) ∧
  (passes_rule r = true → 0 < Zsum counts).
Proof.
  intros Hlen Hpos r.
  destruct (best_loop_spec counts Hlen) as (Hs & _).
  pose proof (daytimeSum_bounds counts (utc_offset_hours r) Hlen Hpos) as Hb.
  assert (Hiff : passes_rule r = true ↔
     Zsum counts < 2 * daytimeSum counts (utc_offset_hours r) ∧
     (3 ≤ bars_high_over_mult r)%nat).
  { change (passes_rule r) with (gt_half (ratio r) && (3 <=? bars_high_over_mult r)%nat).
    rewrite andb_true_iff, Nat.leb_le.
    replace (ratio r)
      with (ratio_of (Zsum counts) (Score (daytimeSum counts (utc_offset_hours r))))
      by (unfold r at 2; simpl; by rewrite Hs, reduce_add_Zsum).
    rewrite gt_half_ratio_of. split; intros [? ?]; (split; [nia|done]). }
  split; [exact Hiff|]. intros Hp. apply Hiff in Hp. lia.
Qed.

Lemma X3_passes_rule_on_integers_witness :
  length office9to17 = 24%nat ∧ Forall (λ c, 0 ≤ c) office9to17 ∧
  (passes_rule (analyzeHourlyCounts office9to17) = true → 0 < Zsum office9to17).
Proof.
  assert (Hpos : Forall (λ c, 0 ≤ c) office9to17).
  { unfold office9to17. rewrite !Forall_app.
    split; [|split]; apply Forall_replicate; lia. }
  split; [reflexivity|]. split; [exact Hpos|].
  apply (X3_passes_rule_on_integers office9to17); [reflexivity|exact Hpos].
Defined.

(** ** The median and the high bars *)

Lemma strongly_sorted_lookup_le l i j x y :
  StronglySorted Z.le l → l !! i = Some x → l !! j = Some y → (i ≤ j)%nat → x ≤ y.
Proof.
  intros Hs. revert i j.
  induction Hs as [|a l _ IH Hall]; intros i j Hi Hj Hij; [by destruct i|].
  destruct i as [|i], j as [|j]; simpl in *; simplify_eq; [lia| |lia|].
  - rewrite Forall_forall in Hall. apply Hall. by eapply list_elem_of_lookup_2.
  - eapply IH; [done..|lia].
Qed.

Lemma filter_none {A} (P : A → Prop) `{!∀ x, Decision (P x)} l :
  Forall (λ x, ¬ P x) l → filter P l = [].
Proof.
  induction 1 as [|x l Hx _ IH]; [done|].
  by rewrite filter_cons, decide_False.
Qed.

Lemma high_bars_above_median counts m :
  length counts = 24%nat → 0 < m →
  median (analyzeHourlyCounts counts) = Some m →
  (highBars_of counts (Some m) ≤ 11)%nat.
Proof.
  intros Hlen Hm Hmed. rewrite highBars_count.
  set (sorted := Array_sort (λ a b, a - b) counts).
  assert (Hsl : length sorted = 24%nat) by (unfold sorted; by rewrite Array_sort_length).
  assert (H12 : sorted !! 12%nat = Some m).
  { simpl in Hmed. unfold median_of in Hmed. fold sorted in Hmed.
    by rewrite Hsl in Hmed. }
  assert (Hss : StronglySorted Z.le sorted).
  { apply (Sorted_StronglySorted Z.le), Array_sort_minus_sorted. }
  rewrite <- (Array_sort_perm (λ a b, a - b) counts). fold sorted.
  rewrite <- (take_drop 13 sorted), filter_app, length_app.
  rewrite (filter_none _ (take 13 sorted)).
  - simpl. etrans; [apply length_filter|]. rewrite length_drop. lia.
  - apply Forall_lookup. intros i x Hi.
    apply lookup_take_Some in Hi as [Hi Hlt].
    pose proof (strongly_sorted_lookup_le sorted i 12 x m Hss Hi H12). lia.
Qed.

(** X4: on a histogram of 24 non-negative buckets the median is
    non-negative; when it is 0 (13 or more empty hours) every bucket counts
    as a high bar, [bars_high_over_mult = 24], and [passes_rule] is just
    [ratio > 0.5]; when it is positive at most 11 buckets are high bars. *)
Theorem X4_high_bars_and_median counts :
  length counts = 24%nat → Forall (λ c, 0 ≤ c) counts →
  let r := analyzeHourlyCounts counts in
  ∃ m, median r = Some m ∧ 0 ≤ m ∧
       (m = 0 → bars_high_over_mult r = 24%nat ∧ passes_rule r = gt_half (ratio r)) ∧
       (0 < m → (bars_high_over_mult r ≤ 11)%nat).
Proof.
  intros Hlen Hpos r.
  destruct (median_defined counts Hlen) as [m Hm]. fold r in Hm.
  exists m. split; [done|].
  assert (Hbars : bars_high_over_mult r = highBars_of counts (Some m)).
  { change (bars_high_over_mult r) with (highBars_of counts (median r)). by rewrite Hm. }
  split_and!.
  - unfold r in Hm. simpl in Hm. unfold median_of in Hm.
    apply list_elem_of_lookup_2 in Hm. rewrite Array_sort_perm in Hm.
    rewrite Forall_forall in Hpos. by apply Hpos.
  - intros ->.
    assert (H24 : bars_high_over_mult r = 24%nat).
    { rewrite Hbars, highBars_count, <- Hlen. f_equal.
      clear -Hpos. induction Hpos as [|c counts Hc _ IH]; [done|].
      rewrite filter_cons, decide_True by lia. by rewrite IH. }
    split; [done|].
    change (passes_rule r) with (gt_half (ratio r) && (3 <=? bars_high_over_mult r)%nat).
    rewrite H24. apply andb_true_r.
  - intros Hm0. rewrite Hbars. by apply high_bars_above_median.
Qed.

Lemma X4_high_bars_and_median_witness :
  length office9to17 = 24%nat ∧ Forall (λ c, 0 ≤ c) office9to17 ∧
  ∃ m, median (analyzeHourlyCounts office9to17) = Some m ∧ 0 ≤ m.
Proof.
  assert (Hpos : Forall (λ c, 0 ≤ c) office9to17).
  { unfold office9to17. rewrite !Forall_app.
    split; [|split]; apply Forall_replicate; lia. }
  split; [reflexivity|]. split; [exact Hpos|].
  destruct (X4_high_bars_and_median office9to17) as (m & Hm & Hm0 & _);
    [reflexivity|exact Hpos|].
  exists m. split; [exact Hm|exact Hm0].
Defined.

(** ** Histograms that are too short *)

Lemma daySum_step_None counts offset hours :
  fold_left (daySum_step counts offset) hours None = None.
Proof.
  induction hours as [|i hours IH]; [done|]. simpl.
  unfold daySum_step at 2.
  by destruct (_ && _).
Qed.

Lemma daySum_undefined counts offset i :
  -24 ≤ offset → (i < 24)%nat →
  in_window offset i = true → counts !! i = None →
  daySum counts offset = None.
Proof.
  intros Hoff Hi Hwin Hnone. unfold daySum.
  replace 24%nat with (i + S (23 - i))%nat by lia.
  rewrite seq_app, fold_left_app.
  generalize (fold_left (daySum_step counts offset) (seq 0 i) (Some 0)).
  intros acc. simpl.
  rewrite (daySum_step_window counts offset acc i Hoff), Hwin, Hnone.
  destruct acc; apply daySum_step_None.
Qed.

Lemma late_hour_in_window offset :
  offset ∈ offsets →
  in_window offset (late_hour offset) = true ∧ (9 ≤ late_hour offset < 24)%nat.
Proof.
  assert (Hall : Forall (λ o, in_window o (late_hour o) = true ∧
                              (9 ≤ late_hour o < 24)%nat) offsets).
  { apply (bool_decide_unpack _). by vm_compute. }
  rewrite Forall_forall in Hall. apply Hall.
Qed.

Lemma fold_left_cons {A B} (f : A → B → A) x l a :
  fold_left f (x :: l) a = fold_left f l (f a x).
Proof. reflexivity. Qed.

Lemma best_step_undefined counts (l : list Z) b :
  (∀ o, o ∈ l → daySum counts o = None) →
  fold_left (best_step counts) l b = b.
Proof.
  intros Hall. induction l as [|o l IH]; [done|].
  rewrite fold_left_cons.
  assert (Hstep : best_step counts b o = b).
  { unfold best_step. by rewrite (Hall o) by apply list_elem_of_here. }
  rewrite Hstep.
  apply IH. intros o' Ho'. apply Hall. by apply list_elem_of_further.
Qed.

Lemma best_loop_short counts : (length counts < 10)%nat → best_loop counts = best0.
Proof.
  intros Hlen. unfold best_loop. fold best0.
  apply best_step_undefined.
  intros o Ho. destruct (late_hour_in_window o Ho) as [Hwin Hlate].
  apply (daySum_undefined counts o (late_hour o)); [|lia|done|].
  - unfold offsets in Ho. apply elem_of_seqZ in Ho. lia.
  - apply lookup_ge_None. lia.
Qed.

(** X5: a histogram with fewer than 10 non-negative buckets has no offset
    whose window it covers: every sum is NaN, [bestScore] stays [-Infinity]
    and the scorer returns its initial offset 0, labelled "UTC+0" with zone
    "Etc/UTC", and [passes_rule = false]. *)
Theorem X5_short_histogram counts :
  (length counts < 10)%nat → Forall (λ c, 0 ≤ c) counts →
  let r := analyzeHourlyCounts counts in
  bestScore (best_loop counts) = NegInfinity ∧
  utc_offset_hours r = 0 ∧
  utc_label r = "UTC+0" ∧
  iana_tz_example r = "Etc/UTC" ∧
  passes_rule r = false.
Proof.
  intros Hlen Hpos r.
  pose proof (best_loop_short counts Hlen) as Hb.
  unfold r. simpl. rewrite Hb. simpl.
  split_and!; [done|done|by vm_compute|by vm_compute|].
  assert (Ht : 0 ≤ reduce_add counts).
  { rewrite reduce_add_Zsum. clear -Hpos.
    induction Hpos as [|c counts Hc _ IH]; simpl; lia. }
  unfold ratio_of. destruct (Z.eqb_spec (reduce_add counts) 0) as [_|Hne]; [done|].
  simpl. by destruct (Z.ltb_spec 0 (reduce_add counts)); [|lia].
Qed.

Lemma X5_short_histogram_witness :
  (length [5; 7; 9] < 10)%nat ∧ Forall (λ c, 0 ≤ c) [5; 7; 9] ∧
  bestScore (best_loop [5; 7; 9]) = NegInfinity.
Proof.
  assert (Hpos : Forall (λ c, 0 ≤ c) [5; 7; 9]) by (repeat constructor; lia).
  split; [simpl; lia|]. split; [exact Hpos|].
  apply (X5_short_histogram [5; 7; 9]); [simpl; lia|exact Hpos].
Defined.

(** ** The zone table and the label *)

Lemma tzExamples_keys o :
  is_Some (tzExamples !! String_of_Z o) → -12 ≤ o ≤ 14.
Proof.
  intros [s Hs].
  destruct (decide (String_of_Z o ∈ String_of_Z <$> seqZ (-12) 27)) as [Hin|Hnot].
  - apply (@list_elem_of_fmap_inj_2 _ _ String_of_Z pretty_Z_inj) in Hin.
    apply elem_of_seqZ in Hin. lia.
  - exfalso. assert (Hnone : tzExamples !! String_of_Z o = None); [|congruence].
    unfold tzExamples. apply not_elem_of_list_to_map_1.
    match goal with
    | |- _ ∉ ?keys =>
        replace keys with (String_of_Z <$> seqZ (-12) 27) by (by vm_compute)
    end.
    exact Hnot.
Qed.

(** X6: [exampleTz] gives "Etc/UTC" exactly for offset 0 and for the
    offsets outside [[-12, 14]], which the table does not hold; inside
    [[-12, 14]] different offsets have different zones. *)
Theorem X6_exampleTz_table :
  (∀ o, exampleTz o = "Etc/UTC" ↔ o = 0 ∨ ¬ (-12 ≤ o ≤ 14)) ∧
  (∀ o1 o2, -12 ≤ o1 ≤ 14 → -12 ≤ o2 ≤ 14 →
            exampleTz o1 = exampleTz o2 → o1 = o2).
Proof.
  split.
  - intros o. destruct (decide (-12 ≤ o ≤ 14)) as [Hin|Hout].
    + assert (Hall : Forall (λ o, exampleTz o = "Etc/UTC" ↔ o = 0) (seqZ (-12) 27)).
      { apply (bool_decide_unpack _). by vm_compute. }
      rewrite Forall_forall in Hall.
      rewrite (Hall o) by (apply elem_of_seqZ; lia). tauto.
    + split; [by right|]. intros _. unfold exampleTz.
      destruct (tzExamples !! String_of_Z o) as [s|] eqn:Hs; [|done].
      exfalso. apply Hout, tzExamples_keys. by rewrite Hs.
  - intros o1 o2 H1 H2.
    assert (Hall : Forall (λ a, Forall (λ b, exampleTz a = exampleTz b → a = b)
                                       (seqZ (-12) 27)) (seqZ (-12) 27)).
    { apply (bool_decide_unpack _). by vm_compute. }
    rewrite Forall_forall in Hall.
    specialize (Hall o1). rewrite Forall_forall in Hall.
    apply Hall; apply elem_of_seqZ; lia.
Qed.

Lemma X6_exampleTz_table_witness :
  -12 ≤ 3 ≤ 14 ∧ -12 ≤ 3 ≤ 14 ∧ (exampleTz 3 = exampleTz 3 → 3 = 3).
Proof.
  split; [lia|]. split; [lia|].
  apply (proj2 X6_exampleTz_table 3 3); lia.
Defined.

(** X7: the label determines the offset: two offsets with the same
    [utc_label] are equal. *)
Theorem X7_utc_label_injective o1 o2 :
  utc_label_of o1 = utc_label_of o2 → o1 = o2.
Proof.
  unfold utc_label_of, String_of_Z.
  destruct (Z.geb_spec o1 0) as [H1|H1], (Z.geb_spec o2 0) as [H2|H2]; simpl.
  - intros [= Heq]. by apply (inj pretty).
  - destruct o2 as [|p|p]; [lia..|]. by intros [= ?].
  - destruct o1 as [|p|p]; [lia..|]. by intros [= ?].
  - intros [= Heq]. by apply (inj pretty).
Qed.

Lemma X7_utc_label_injective_witness :
  utc_label_of (-7) = utc_label_of (-7) ∧ -7 = -7.
Proof.
  split; [reflexivity|].
  apply (X7_utc_label_injective (-7) (-7)). reflexivity.
Defined.

(** * Further properties of the accumulator *)

Lemma Zsum_insert l i c x :
  l !! i = Some c → Zsum (<[i := x]> l) = Zsum l - c + x.
Proof.
  revert i. induction l as [|y l IH]; intros [|i] Hi; simplify_eq/=; [lia|].
  rewrite (IH i Hi). lia.
Qed.

Lemma kept_cons f ev activity :
  kept f (ev :: activity) =
    if decide (keeps f ev = true) then ev :: kept f activity else kept f activity.
Proof. unfold kept. by rewrite filter_cons. Qed.

Lemma accumulate_cons f counts24 ev activity :
  accumulateHoursFromActivity counts24 (ev :: activity) f
  = accumulateHoursFromActivity (accumulate_step f counts24 ev) activity f.
Proof. done. Qed.

(** What one event does to a histogram of 24 buckets. *)
Lemma accumulate_step_cases f counts24 ev :
  length counts24 = 24%nat →
  (keeps f ev = false ∧ accumulate_step f counts24 ev = counts24) ∨
  (keeps f ev = true ∧
   ∃ h c, (h < 24)%nat ∧ counts24 !! h = Some c ∧
          accumulate_step f counts24 ev = <[h := c + 1]> counts24).
Proof.
  intros Hlen. unfold keeps, accumulate_step.
  destruct (event_outcome f ev) as [|h|] eqn:Hev; [by left| |by left].
  right. split; [done|].
  pose proof (event_outcome_hour f ev h Hev) as Hh.
  destruct (lookup_lt_is_Some_2 counts24 h) as [c Hc]; [lia|].
  exists h, c. split_and!; [done..|]. by apply increment_in_range.
Qed.

Lemma accumulate_Zsum f activity counts24 :
  length counts24 = 24%nat →
  Zsum (accumulateHoursFromActivity counts24 activity f)
  = Zsum counts24 + Z.of_nat (length (kept f activity)).
Proof.
  revert counts24. induction activity as [|ev activity IH]; intros counts24 Hlen.
  { simpl. lia. }
  rewrite accumulate_cons, kept_cons.
  destruct (accumulate_step_cases f counts24 ev Hlen)
    as [[Hk ->]|(Hk & h & c & Hh & Hc & ->)].
  - rewrite decide_False by congruence. by apply IH.
  - rewrite decide_True by done.
    rewrite IH by (by rewrite length_insert).
    rewrite (Zsum_insert _ _ c) by done. simpl length. lia.
Qed.

Lemma accumulate_mono f activity counts24 h c :
  length counts24 = 24%nat → counts24 !! h = Some c →
  ∃ c', accumulateHoursFromActivity counts24 activity f !! h = Some c' ∧ c ≤ c'.
Proof.
  intros Hlen Hh.
  destruct (accumulate_lookup f activity counts24 Hlen) as [_ Hc].
  eexists. split; [by apply Hc|]. unfold counted_at. lia.
Qed.

Lemma accumulate_nonneg f activity counts24 :
  length counts24 = 24%nat → Forall (λ c, 0 ≤ c) counts24 →
  Forall (λ c, 0 ≤ c) (accumulateHoursFromActivity counts24 activity f).
Proof.
  intros Hlen Hpos. apply Forall_lookup. intros h c' Hh'.
  destruct (accumulate_lookup f activity counts24 Hlen) as [Hl _].
  destruct (lookup_lt_is_Some_2 counts24 h) as [c Hh].
  { apply lookup_lt_Some in Hh'. lia. }
  destruct (accumulate_mono f activity counts24 h c Hlen Hh) as (c'' & Hc'' & Hle).
  rewrite Forall_lookup in Hpos. specialize (Hpos h c Hh). simpl in Hpos.
  simplify_eq. lia.
Qed.

(** X8: on a histogram of 24 buckets the accumulator adds exactly one per
    counted event: the sum of the buckets grows by the number of events
    kept, no bucket decreases, and non-negative buckets stay non-negative. *)
Theorem X8_accumulator_counts_each_kept_event counts24 activity filterAddrLower :
  length counts24 = 24%nat →
  let out := accumulateHoursFromActivity counts24 activity filterAddrLower in
  Zsum out = Zsum counts24 + Z.of_nat (length (kept filterAddrLower activity)) ∧
  (∀ h c, counts24 !! h = Some c → ∃ c', out !! h = Some c' ∧ c ≤ c') ∧
  (Forall (λ c, 0 ≤ c) counts24 → Forall (λ c, 0 ≤ c) out).
Proof.
  intros Hlen out. split_and!.
  - by apply accumulate_Zsum.
  - intros h c Hh. by apply accumulate_mono.
  - intros Hpos. by apply accumulate_nonneg.
Qed.

Lemma X8_accumulator_counts_each_kept_event_witness :
  length zeros24 = 24%nat ∧
  Zsum (accumulateHoursFromActivity zeros24 [anonymous_event] None)
  = Zsum zeros24 + Z.of_nat (length (kept None [anonymous_event])).
Proof.
  split; [reflexivity|].
  apply (X8_accumulator_counts_each_kept_event zeros24 [anonymous_event] None).
  reflexivity.
Defined.

Lemma getUTCHours_hour d h r :
  0 ≤ h < 24 → 0 ≤ r < 3600000 →
  getUTCHours (d * 86400000 + h * 3600000 + r) = Z.to_nat h.
Proof.
  intros Hh Hr. unfold getUTCHours. f_equal.
  assert (Hdiv : (d * 86400000 + h * 3600000 + r) / 3600000 = d * 24 + h).
  { symmetry. apply (Z.div_unique _ _ _ r); lia. }
  rewrite Hdiv. rewrite Z.add_comm, Z_mod_plus_full. by apply Z.mod_small.
Qed.

Lemma getUTCHours_days ts k : getUTCHours (ts + k * 86400000) = getUTCHours ts.
Proof.
  unfold getUTCHours. f_equal.
  replace (ts + k * 86400000) with (ts + (k * 24) * 3600000) by lia.
  rewrite Z.div_add by lia. by rewrite Z_mod_plus_full.
Qed.

(** X9: the bucket of an event is the hour of the day of its time value,
    before the epoch as well: a counted event at [d] whole days, [h] hours
    and [r] milliseconds (less than an hour) from the epoch adds 1 to bucket
    [h] of a 24-bucket histogram, whatever the sign of [d]; and two events
    of the same address a whole number of days apart change the histogram
    in the same way. *)
Theorem X9_bucket_is_hour_of_day filterAddrLower counts24 wallet :
  length counts24 = 24%nat →
  (∀ d h r, 0 ≤ h < 24 → 0 ≤ r < 3600000 →
     let ev := {| wallet_address := wallet;
                  block_time := Some (d * 86400000 + h * 3600000 + r) |} in
     keeps filterAddrLower ev = true →
     ∃ c, counts24 !! Z.to_nat h = Some c ∧
          accumulate_step filterAddrLower counts24 ev
          = <[Z.to_nat h := c + 1]> counts24) ∧
  (∀ ts k,
     accumulate_step filterAddrLower counts24
       {| wallet_address := wallet; block_time := Some (ts + k * 86400000) |}
     = accumulate_step filterAddrLower counts24
         {| wallet_address := wallet; block_time := Some ts |}).
Proof.
  intros Hlen. split.
  - intros d h r Hh Hr ev Hkeep.
    destruct (lookup_lt_is_Some_2 counts24 (Z.to_nat h)) as [c Hc]; [lia|].
    exists c. split; [done|].
    unfold keeps in Hkeep. unfold accumulate_step.
    destruct (event_outcome filterAddrLower ev) as [|h'|] eqn:Hev; [done| |done].
    assert (h' = Z.to_nat h) as ->.
    { unfold event_outcome, ev in Hev. simpl in Hev.
      rewrite (getUTCHours_hour d h r Hh Hr) in Hev.
      repeat case_match; congruence. }
    by apply increment_in_range.
  - intros ts k. unfold accumulate_step, event_outcome. simpl.
    by rewrite getUTCHours_days.
Qed.

Lemma X9_bucket_is_hour_of_day_witness :
  length zeros24 = 24%nat ∧
  accumulate_step None zeros24
    {| wallet_address := Undefined; block_time := Some (5 + (-1) * 86400000) |}
  = accumulate_step None zeros24 {| wallet_address := Undefined; block_time := Some 5 |}.
Proof.
  split; [reflexivity|].
  apply (proj2 (X9_bucket_is_hour_of_day None zeros24 Undefined eq_refl) 5 (-1)).
Defined.

(** ** The histogram of an address *)

Lemma accumulate_app f counts24 a1 a2 :
  accumulateHoursFromActivity counts24 (a1 ++ a2) f
  = accumulateHoursFromActivity (accumulateHoursFromActivity counts24 a1 f) a2 f.
Proof. unfold accumulateHoursFromActivity. apply fold_left_app. Qed.

Lemma accumulate_pages_concat f counts pages :
  accumulate_pages f counts pages
  = accumulateHoursFromActivity counts (concat pages) f.
Proof.
  revert counts. induction pages as [|page pages IH]; intros counts; [done|].
  simpl. rewrite accumulate_app. apply IH.
Qed.

Lemma accumulate_perm f counts24 a1 a2 :
  length counts24 = 24%nat → a1 ≡ₚ a2 →
  accumulateHoursFromActivity counts24 a1 f = accumulateHoursFromActivity counts24 a2 f.
Proof.
  intros Hlen Hp.
  destruct (accumulate_lookup f a1 counts24 Hlen) as [Hl1 Hc1].
  destruct (accumulate_lookup f a2 counts24 Hlen) as [Hl2 Hc2].
  apply list_eq. intros h.
  destruct (counts24 !! h) as [c|] eqn:Hh.
  - rewrite (Hc1 h c Hh), (Hc2 h c Hh). do 2 f_equal. by apply counted_at_perm.
  - apply lookup_ge_None in Hh.
    rewrite !(proj2 (lookup_ge_None _ _)); [done|lia..].
Qed.

Lemma fetchAddressHistogramSIM_pages address pages :
  fetchAddressHistogramSIM address pages
  = accumulate_pages (Some (toLowerCase address)) (replicate 24 0) pages.
Proof. done. Qed.

(** X10: the histogram of an address does not depend on the order in which
    the chain requests complete, nor on how the events are split over the
    pages: it is the accumulation of all events of all pages into 24 zeros. *)
Theorem X10_histogram_independent_of_completion_order address pages :
  fetchAddressHistogramSIM address pages
  = accumulateHoursFromActivity (replicate 24 0) (concat pages)
      (Some (toLowerCase address)) ∧
  (∀ pages', pages ≡ₚ pages' →
     fetchAddressHistogramSIM address pages' = fetchAddressHistogramSIM address pages) ∧
  (∀ pages', concat pages ≡ₚ concat pages' →
     fetchAddressHistogramSIM address pages' = fetchAddressHistogramSIM address pages).
Proof.
  assert (Hsplit : ∀ pages', concat pages ≡ₚ concat pages' →
     fetchAddressHistogramSIM address pages' = fetchAddressHistogramSIM address pages).
  { intros pages' Hp. rewrite !fetchAddressHistogramSIM_pages, !accumulate_pages_concat.
    symmetry. by apply accumulate_perm. }
  split_and!; [|intros pages' Hp; apply Hsplit; by rewrite Hp|exact Hsplit].
  by rewrite fetchAddressHistogramSIM_pages, accumulate_pages_concat.
Qed.

Lemma X10_histogram_independent_of_completion_order_witness :
  [[anonymous_event]; []] ≡ₚ [[]; [anonymous_event]] ∧
  fetchAddressHistogramSIM "0xabc" [[]; [anonymous_event]]
  = fetchAddressHistogramSIM "0xabc" [[anonymous_event]; []].
Proof.
  assert (Hp : [[anonymous_event]; []] ≡ₚ [[]; [anonymous_event]]) by apply perm_swap.
  split; [exact Hp|].
  exact (proj1 (proj2 (X10_histogram_independent_of_completion_order
                         "0xabc" [[anonymous_event]; []])) _ Hp).
Defined.

Lemma fetch_histogram_shape address pages :
  length (fetchAddressHistogramSIM address pages) = 24%nat ∧
  Forall (λ c, 0 ≤ c) (fetchAddressHistogramSIM address pages).
Proof.
  rewrite fetchAddressHistogramSIM_pages, accumulate_pages_concat.
  assert (Hlen : length (replicate 24 0) = 24%nat) by done.
  split.
  - apply (accumulate_lookup _ _ _ Hlen).
  - apply accumulate_nonneg; [done|]. apply Forall_replicate. lia.
Qed.

Lemma Zsum_nonneg l : Forall (λ c, 0 ≤ c) l → 0 ≤ Zsum l.
Proof. induction 1; simpl; lia. Qed.

Lemma Zsum_zero l : Forall (λ c, 0 ≤ c) l → Zsum l = 0 → Forall (λ c, c = 0) l.
Proof.
  induction 1 as [|c l Hc Hpos IH]; [done|]. simpl. intros Hsum.
  pose proof (Zsum_nonneg l Hpos). constructor; [lia|]. apply IH. lia.
Qed.

(** X11: whatever the provider answers, the histogram of an address has
    24 non-negative buckets whose sum is the number of events counted; when
    no chain answers, or no event of the answers is counted, it is the
    histogram of 24 zeros. *)
Theorem X11_histogram_of_an_address address pages :
  let counts := fetchAddressHistogramSIM address pages in
  length counts = 24%nat ∧
  Forall (λ c, 0 ≤ c) counts ∧
  Zsum counts = Z.of_nat (length (kept (Some (toLowerCase address)) (concat pages))) ∧
  (kept (Some (toLowerCase address)) (concat pages) = [] → counts = zeros24).
Proof.
  intros counts.
  destruct (fetch_histogram_shape address pages) as [Hlen Hpos].
  assert (Hsum : Zsum counts
     = Z.of_nat (length (kept (Some (toLowerCase address)) (concat pages)))).
  { unfold counts. rewrite fetchAddressHistogramSIM_pages, accumulate_pages_concat.
    rewrite accumulate_Zsum by done.
    change (Zsum (replicate 24 0)) with 0. lia. }
  split_and!; [done..|].
  intros Hnone. apply all_zero_zeros24; [done|].
  apply Zsum_zero; [done|]. by rewrite Hsum, Hnone.
Qed.

(** * The chain worker pool *)


Lemma in_flight_bound ws : (length (in_flight ws) ≤ length ws)%nat.
Proof.
  unfold in_flight. induction ws as [|w ws IH]; [done|].
  rewrite bind_cons, length_app. destruct w; simpl; lia.
Qed.





Lemma chain_step_no_worker addrLower q counts rq p' :
  ¬ chain_step addrLower (ChainPool q [] counts rq) p'.
Proof. inversion 1; simplify_eq/=. Qed.



(** One worker can empty the chain queue by itself, with the first requests
    answered by the given pages and the others failing. *)
Lemma one_chain_worker_drains addrLower q ws counts rq pages :
  ws !! 0%nat = Some AtLoop →
  (length pages ≤ length q)%nat →
  rtc (chain_step addrLower)
      (ChainPool q ws counts rq)
      (ChainPool [] ws (accumulate_pages (Some addrLower) counts pages) (rq ++ rev q)).
Proof.
  intros H0. revert counts rq pages.
  induction q as [|c q IH] using rev_ind; intros counts rq pages Hlen.
  { destruct pages; [|simpl in Hlen; lia]. simpl. by rewrite (right_id_L [] (++)). }
  rewrite length_app in Hlen. simpl in Hlen.
  rewrite rev_app_distr. simpl.
  eapply rtc_l; [by apply (chain_pop addrLower 0)|].
  assert (Hi : <[0%nat := Awaiting c]> ws !! 0%nat = Some (Awaiting c)).
  { apply list_lookup_insert_eq. by eapply lookup_lt_Some. }
  destruct pages as [|page pages].
  - eapply rtc_l; [by apply (chain_failed addrLower 0 q c)|].
    rewrite list_insert_insert_eq, (list_insert_id ws 0 AtLoop H0).
    replace (rq ++ c :: rev q) with ((rq ++ [c]) ++ rev q) by (by rewrite <- app_assoc).
    apply (IH counts (rq ++ [c]) []). simpl. lia.
  - eapply rtc_l; [by apply (chain_answered addrLower 0 q c page)|].
    rewrite list_insert_insert_eq, (list_insert_id ws 0 AtLoop H0).
    replace (rq ++ c :: rev q) with ((rq ++ [c]) ++ rev q) by (by rewrite <- app_assoc).
    apply (IH _ (rq ++ [c]) pages). simpl in Hlen. lia.
Qed.

Lemma chain_workers_return addrLower back n counts rq :
  rtc (chain_step addrLower)
      (ChainPool [] (back ++ replicate n AtLoop) counts rq)
      (ChainPool [] (back ++ replicate n Returned) counts rq).
Proof.
  revert back. induction n as [|n IH]; intros back; [done|].
  eapply rtc_l.
  - apply (chain_return addrLower (length back)). by apply list_lookup_middle.
  - replace (<[length back := Returned]> (back ++ replicate (S n) AtLoop))
      with ((back ++ [Returned]) ++ replicate n AtLoop).
    + replace (back ++ replicate (S n) Returned)
        with ((back ++ [Returned]) ++ replicate n Returned)
        by (by rewrite <- (assoc_L (++))).
      apply IH.
    + rewrite <- (assoc_L (++)). simpl.
      replace (length back) with (length back + 0)%nat at 1 by lia.
      by rewrite insert_app_r.
Qed.

(** X13: with [WORKERS >= 1], every choice of answers is possible: for any
    pages, at most one per configured chain id, the chain pool has a run
    on which all workers return and the histogram is
    [fetchAddressHistogramSIM address pages]; with [WORKERS <= 0] no worker
    exists, no request is sent and the histogram stays at 24 zeros. *)
Theorem X13_chain_pool_runs SIM_CHAIN_IDS WORKERS address :
  (1 ≤ WORKERS → ∀ pages, (length pages ≤ length SIM_CHAIN_IDS)%nat →
     ∃ p, rtc (chain_step (toLowerCase address)) (chain_start SIM_CHAIN_IDS WORKERS) p ∧
          chain_settled p ∧
          chain_counts p = fetchAddressHistogramSIM address pages ∧
          chain_requests p = rev SIM_CHAIN_IDS) ∧
  (WORKERS ≤ 0 → ∀ p,
     rtc (chain_step (toLowerCase address)) (chain_start SIM_CHAIN_IDS WORKERS) p →
     chain_settled p ∧ chain_counts p = zeros24 ∧ chain_requests p = []).
Proof.
  split.
  - intros HW pages Hlen. unfold chain_start.
    destruct (Z.to_nat WORKERS) as [|n] eqn:Hk; [lia|].
    exists (ChainPool [] (replicate (S n) Returned)
                      (fetchAddressHistogramSIM address pages) (rev SIM_CHAIN_IDS)).
    split_and!; [|by apply (Forall_replicate _ (S n))|done..].
    etrans.
    + by apply (one_chain_worker_drains _ _ _ _ _ pages).
    + apply (chain_workers_return _ [] (S n)).
  - intros HW p Hsteps. unfold chain_start in Hsteps.
    replace (Z.to_nat WORKERS) with 0%nat in Hsteps by lia. simpl in Hsteps.
    inversion Hsteps as [|? ? ? Hstep]; subst.
    + split_and!; [constructor|done..].
    + by apply chain_step_no_worker in Hstep.
Qed.

Lemma X13_chain_pool_runs_witness :
  1 ≤ 5 ∧ (length [[anonymous_event]] ≤ length ["1"; "137"])%nat ∧
  ∃ p, rtc (chain_step (toLowerCase "0xABC")) (chain_start ["1"; "137"] 5) p ∧
       chain_settled p ∧
       chain_counts p = fetchAddressHistogramSIM "0xABC" [[anonymous_event]] ∧
       chain_requests p = rev ["1"; "137"].
Proof.
  split; [lia|]. split; [simpl; lia|].
  apply (proj1 (X13_chain_pool_runs ["1"; "137"] 5 "0xABC")); [lia|simpl; lia].
Defined.

(** * Further properties of the address pool and the handler *)

Lemma step_scored p p' :
  step p p' → Forall scored (results p) → Forall scored (results p').
Proof.
  intros Hstep Hall.
  destruct Hstep as [i q a ws rs fs Hi|i q a pages ws rs fs Hi|i ws rs fs Hi];
    simpl in *; [done| |done].
  apply Forall_app. split; [done|]. constructor; [|constructor].
  by exists pages.
Qed.

Lemma steps_scored p p' :
  rtc step p p' → Forall scored (results p) → Forall scored (results p').
Proof. induction 1; eauto using step_scored. Qed.

Lemma analysis_bounds counts :
  length counts = 24%nat → Forall (λ c, 0 ≤ c) counts →
  -12 ≤ utc_offset_hours (analyzeHourlyCounts counts) ≤ 11 ∧
  (∃ q, ratio (analyzeHourlyCounts counts) = Rat q ∧ (0 <= q <= 1)%Q) ∧
  iana_tz_example (analyzeHourlyCounts counts)
    = exampleTz (utc_offset_hours (analyzeHourlyCounts counts)) ∧
  utc_label (analyzeHourlyCounts counts)
    = utc_label_of (utc_offset_hours (analyzeHourlyCounts counts)) ∧
  is_Some (median (analyzeHourlyCounts counts)).
Proof.
  intros Hlen Hpos.
  pose proof (offset_below_12 counts Hlen) as Hoff.
  pose proof (median_defined counts Hlen) as Hmed.
  destruct (best_loop_spec counts Hlen) as (Hs & _).
  pose proof (daytimeSum_bounds counts (bestOffset (best_loop counts)) Hlen Hpos) as Hb.
  split; [exact Hoff|]. split; [|split; [|split; [|exact Hmed]]].
  2,3: unfold analyzeHourlyCounts;
       cbn [iana_tz_example utc_label utc_offset_hours]; reflexivity.
  unfold analyzeHourlyCounts; cbn [ratio].
  rewrite Hs, reduce_add_Zsum. unfold ratio_of.
  destruct (Z.eqb_spec (Zsum counts) 0) as [H0|H0].
  - exists 0%Q. by split.
  - eexists. split; [reflexivity|]. by apply Qdiv_unit_interval.
Qed.

Lemma scored_bounds e :
  scored e →
  -12 ≤ utc_offset_hours (analysis e) ≤ 11 ∧
  (∃ q, ratio (analysis e) = Rat q ∧ (0 <= q <= 1)%Q) ∧
  iana_tz_example (analysis e) = exampleTz (utc_offset_hours (analysis e)) ∧
  utc_label (analysis e) = utc_label_of (utc_offset_hours (analysis e)) ∧
  is_Some (median (analysis e)).
Proof.
  intros [pages ->].
  destruct (fetch_histogram_shape (address e) pages) as [Hlen Hpos].
  by apply analysis_bounds.
Qed.

(** X14: every entry of an answer computed on a cache miss is the analysis
    of a 24-bucket histogram of its address: its offset lies in [[-12, 11]],
    its ratio is a number in [[0, 1]] (never an infinity), its median is
    defined, and zone and label are those of its offset. *)
Theorem X14_entries_of_an_answer WORKERS cache addresses rs cache' effects :
  cache !! cacheKey addresses = None →
  handler WORKERS cache (Array addresses) (Json rs) cache' effects →
  Forall (λ e,
    -12 ≤ utc_offset_hours (analysis e) ≤ 11 ∧
    (∃ q, ratio (analysis e) = Rat q ∧ (0 <= q <= 1)%Q) ∧
    iana_tz_example (analysis e) = exampleTz (utc_offset_hours (analysis e)) ∧
    utc_label (analysis e) = utc_label_of (utc_offset_hours (analysis e)) ∧
    is_Some (median (analysis e))) rs.
Proof.
  intros Hmiss Hrun.
  inversion Hrun as [|l cached Hacc Hhit|l p Hacc _ Hsteps Hset]; subst.
  - assert (l = addresses) as -> by (destruct addresses; simpl in Hacc; congruence).
    congruence.
  - eapply Forall_impl; [|intros e; apply scored_bounds].
    apply (steps_scored _ _ Hsteps). constructor.
Qed.

(** A run for one address whose chain requests all fail. *)
Lemma one_address_run :
  handler 5 ∅ (Array ["0xabc"]) (Json [silent_entry "0xabc"])
          (<[cacheKey ["0xabc"] := [silent_entry "0xabc"]]> ∅)
          (CacheGet (cacheKey ["0xabc"]) :: map Fetch ["0xabc"]
             ++ [CacheSet (cacheKey ["0xabc"]) [silent_entry "0xabc"]]).
Proof.
  apply (handler_miss 5 ∅ (Array ["0xabc"]) ["0xabc"]
           (Pool [] [Returned] [silent_entry "0xabc"] ["0xabc"])); [done|done| |].
  - change (start 5 ["0xabc"]) with (Pool ["0xabc"] [AtLoop] [] []).
    eapply rtc_l; [exact (step_pop 0 [] "0xabc" [AtLoop] [] [] eq_refl)|].
    eapply rtc_l;
      [exact (step_push 0 [] "0xabc" [] [Awaiting "0xabc"] [] ["0xabc"] eq_refl)|].
    eapply rtc_l;
      [exact (step_return 0 [AtLoop] [silent_entry "0xabc"] ["0xabc"] eq_refl)|].
    reflexivity.
  - unfold settled. simpl. by repeat constructor.
Qed.

Lemma X14_entries_of_an_answer_witness :
  (∅ : gmap string (list entry)) !! cacheKey ["0xabc"] = None ∧
  Forall (λ e, -12 ≤ utc_offset_hours (analysis e) ≤ 11) [silent_entry "0xabc"].
Proof.
  split; [reflexivity|].
  eapply Forall_impl;
    [exact (X14_entries_of_an_answer 5 ∅ ["0xabc"] _ _ _ eq_refl one_address_run)|].
  intros e He. exact (proj1 He).
Defined.

(** ** Cache hits *)

Lemma handler_hit_only WORKERS cache addresses cached resp cache' effects :
  addresses ≠ [] →
  cache !! cacheKey addresses = Some cached →
  handler WORKERS cache (Array addresses) resp cache' effects →
  resp = Json cached ∧ cache' = cache ∧ effects = [CacheGet (cacheKey addresses)].
Proof.
  intros Hne Hhit Hrun.
  assert (Hacc : accepted (Array addresses) = Some addresses) by (by destruct addresses).
  destruct Hrun as [Hrej|l cached' Hacc' Hhit'|l p Hacc' Hmiss _ _];
    [congruence| |].
  - assert (l = addresses) as -> by congruence.
    by assert (cached' = cached) as -> by congruence.
  - assert (l = addresses) as -> by congruence. congruence.
Qed.



(** X16: a miss followed by an equivalent request is a hit: after the
    handler has answered a non-empty request on a miss, a request whose
    lower-cased addresses are a rearrangement of those of the first gets the
    very same answer (with the addresses spelled as in the first request),
    from the cache alone. *)
Theorem X16_miss_then_hit WORKERS cache l1 l2 resp1 cache1 effects1 :
  l1 ≠ [] → l2 ≠ [] →
  map toLowerCase l1 ≡ₚ map toLowerCase l2 →
  cache !! cacheKey l1 = None →
  handler WORKERS cache (Array l1) resp1 cache1 effects1 →
  handler WORKERS cache1 (Array l2) resp1 cache1 [CacheGet (cacheKey l2)] ∧
  ∀ resp2 cache2 effects2,
    handler WORKERS cache1 (Array l2) resp2 cache2 effects2 →
    resp2 = resp1 ∧ cache2 = cache1 ∧ effects2 = [CacheGet (cacheKey l1)].
Proof.
  intros Hne1 Hne2 Hperm Hmiss Hrun.
  assert (Hkey : cacheKey l2 = cacheKey l1).
  { unfold cacheKey. by rewrite (Array_sort_default_perm _ _ Hperm). }
  assert (Hacc : accepted (Array l1) = Some l1) by (by destruct l1).
  destruct Hrun as [Hrej|l cached Hacc' Hhit|l p Hacc' _ Hsteps Hset];
    [congruence| |].
  { assert (l = l1) as -> by congruence. congruence. }
  assert (l = l1) as -> by congruence.
  assert (Hhit : <[cacheKey l1 := results p]> cache !! cacheKey l2 = Some (results p)).
  { rewrite Hkey. apply lookup_insert_eq. }
  split.
  - apply handler_hit; [by destruct l2|done].
  - intros resp2 cache2 effects2 Hrun2.
    destruct (handler_hit_only WORKERS _ l2 (results p) _ _ _ Hne2 Hhit Hrun2)
      as (-> & -> & ->).
    by rewrite Hkey.
Qed.

Lemma X16_miss_then_hit_witness :
  ["0xabc"] ≠ [] ∧ ["0xABC"] ≠ [] ∧
  map toLowerCase ["0xabc"] ≡ₚ map toLowerCase ["0xABC"] ∧
  (∅ : gmap string (list entry)) !! cacheKey ["0xabc"] = None ∧
  handler 5 (<[cacheKey ["0xabc"] := [silent_entry "0xabc"]]> ∅) (Array ["0xABC"])
          (Json [silent_entry "0xabc"])
          (<[cacheKey ["0xabc"] := [silent_entry "0xabc"]]> ∅)
          [CacheGet (cacheKey ["0xABC"])].
Proof.
  assert (Hp : map toLowerCase ["0xabc"] ≡ₚ map toLowerCase ["0xABC"]) by reflexivity.
  split; [discriminate|]. split; [discriminate|]. split; [exact Hp|].
  split; [reflexivity|].
  refine (proj1 (X16_miss_then_hit 5 ∅ ["0xabc"] ["0xABC"] _ _ _ _ _ Hp eq_refl
                   one_address_run)); discriminate.
Defined.

(** ** The order of the fetches and of the results *)

Lemma step_fetch_order addresses p p' :
  step p p' →
  fetches p ++ rev (queue p) = rev addresses →
  fetches p' ++ rev (queue p') = rev addresses.
Proof.
  intros Hstep Hord.
  destruct Hstep as [i q a ws rs fs Hi|i q a pages ws rs fs Hi|i ws rs fs Hi];
    simpl in *; [|done..].
  rewrite <- Hord, rev_app_distr. simpl. by rewrite <- app_assoc.
Qed.

Lemma steps_fetch_order addresses p p' :
  rtc step p p' →
  fetches p ++ rev (queue p) = rev addresses →
  fetches p' ++ rev (queue p') = rev addresses.
Proof. induction 1; eauto using step_fetch_order. Qed.

Lemma settled_queue_empty WORKERS addresses p :
  1 ≤ WORKERS →
  rtc step (start WORKERS addresses) p → settled p → queue p = [].
Proof.
  intros HW Hsteps Hset.
  destruct (steps_pool_inv _ _ _ _ (start_pool_inv WORKERS addresses) Hsteps)
    as (_ & Hlen & Hret).
  pose proof (workerCount_pos WORKERS addresses HW) as Hn.
  apply Hret. unfold settled in Hset.
  destruct (workers p) as [|w ws]; [simpl in Hlen; lia|].
  apply Forall_cons in Hset as [-> _]. apply list_elem_of_here.
Qed.

(** X17: on a cache miss with [WORKERS >= 1] the effects of the handler
    are, in this order: one read of the cache, one fetch per requested
    address started in the reverse of the request order, and one write of
    the results under the key; no other key of the cache changes. *)
Theorem X17_effects_of_a_miss WORKERS cache addresses resp cache' effects :
  1 ≤ WORKERS → addresses ≠ [] →
  cache !! cacheKey addresses = None →
  handler WORKERS cache (Array addresses) resp cache' effects →
  ∃ rs,
    resp = Json rs ∧
    effects = CacheGet (cacheKey addresses) :: map Fetch (rev addresses)
                ++ [CacheSet (cacheKey addresses) rs] ∧
    cache' !! cacheKey addresses = Some rs ∧
    ∀ key, key ≠ cacheKey addresses → cache' !! key = cache !! key.
Proof.
  intros HW Hne Hmiss Hrun.
  assert (Hacc : accepted (Array addresses) = Some addresses) by (by destruct addresses).
  destruct Hrun as [Hrej|l cached Hacc' Hhit|l p Hacc' _ Hsteps Hset];
    [congruence| |].
  { assert (l = addresses) as -> by congruence. congruence. }
  assert (l = addresses) as -> by congruence.
  pose proof (settled_queue_empty WORKERS addresses p HW Hsteps Hset) as Hq.
  pose proof (steps_fetch_order addresses _ _ Hsteps eq_refl) as Hord.
  rewrite Hq in Hord. simpl in Hord. rewrite app_nil_r in Hord.
  exists (results p). split_and!; [done|by rewrite Hord|apply lookup_insert_eq|].
  intros key Hkey. by rewrite lookup_insert_ne.
Qed.

Lemma X17_effects_of_a_miss_witness :
  1 ≤ 5 ∧ ["0xabc"] ≠ [] ∧
  (∅ : gmap string (list entry)) !! cacheKey ["0xabc"] = None ∧
  ∃ rs, Json [silent_entry "0xabc"] = Json rs ∧
        (<[cacheKey ["0xabc"] := [silent_entry "0xabc"]]> ∅ : gmap string (list entry))
          !! cacheKey ["0xabc"] = Some rs.
Proof.
  split; [lia|]. split; [discriminate|]. split; [reflexivity|].
  destruct (X17_effects_of_a_miss 5 ∅ ["0xabc"] _ _ _ ltac:(lia) ltac:(discriminate)
              eq_refl one_address_run) as (rs & Hresp & _ & Hcache & _).
  exists rs. split; [exact Hresp|exact Hcache].
Defined.

(** X18: the fetches in flight never exceed the number of workers, which
    is at most [WORKERS] and at most half the number of addresses (rounded
    up, and at least 1). *)
Theorem X18_bounded_concurrency WORKERS addresses p :
  rtc step (start WORKERS addresses) p →
  Z.of_nat (length (in_flight (workers p))) ≤ Z.max 0 (workerCount WORKERS addresses) ∧
  workerCount WORKERS addresses ≤ WORKERS ∧
  workerCount WORKERS addresses ≤ Z.max 1 ((Z.of_nat (length addresses) + 1) / 2) ∧
  (2 * ((Z.of_nat (length addresses) + 1) / 2) ≤ Z.of_nat (length addresses) + 1).
Proof.
  intros Hsteps.
  destruct (steps_pool_inv _ _ _ _ (start_pool_inv WORKERS addresses) Hsteps)
    as (_ & Hlen & _).
  pose proof (in_flight_bound (workers p)) as Hb.
  split_and!.
  - lia.
  - unfold workerCount. lia.
  - unfold workerCount. lia.
  - apply Z.mul_div_le. lia.
Qed.

Lemma X18_bounded_concurrency_witness :
  rtc step (start 5 ["0xabc"; "0xdef"; "0x123"]) (start 5 ["0xabc"; "0xdef"; "0x123"]) ∧
  workerCount 5 ["0xabc"; "0xdef"; "0x123"] ≤ 5.
Proof.
  assert (Hrun : rtc step (start 5 ["0xabc"; "0xdef"; "0x123"])
                     (start 5 ["0xabc"; "0xdef"; "0x123"])) by reflexivity.
  split; [exact Hrun|].
  apply (X18_bounded_concurrency 5 ["0xabc"; "0xdef"; "0x123"] _ Hrun).
Defined.

Lemma lone_worker_step addresses p p' :
  lone_worker_inv addresses p → step p p' → lone_worker_inv addresses p'.
Proof.
  intros (w & Hw & Hord) Hstep.
  destruct Hstep as [i q a ws rs fs Hi|i q a pages ws rs fs Hi|i ws rs fs Hi];
    simpl in *; subst ws; destruct i as [|i]; simplify_eq/=.
  - exists (Awaiting a). split; [done|]. simpl.
    rewrite <- Hord, rev_app_distr. done.
  - exists AtLoop. split; [done|]. simpl.
    rewrite <- Hord, map_app. simpl. by rewrite <- app_assoc.
  - exists Returned. by split.
Qed.

Lemma lone_worker_steps addresses p p' :
  rtc step p p' → lone_worker_inv addresses p → lone_worker_inv addresses p'.
Proof. induction 1; eauto using lone_worker_step. Qed.

(** X19: a request served by a single worker (one or two addresses, or
    [WORKERS = 1]) is answered in the reverse of the request order: the
    queue is popped from its end. *)
Theorem X19_single_worker_answers_in_reverse WORKERS cache addresses resp cache' effects :
  1 ≤ WORKERS →
  WORKERS = 1 ∨ (length addresses ≤ 2)%nat →
  addresses ≠ [] →
  cache !! cacheKey addresses = None →
  handler WORKERS cache (Array addresses) resp cache' effects →
  ∃ rs, resp = Json rs ∧ map address rs = rev addresses.
Proof.
  intros HW Hsmall Hne Hmiss Hrun.
  assert (Hacc : accepted (Array addresses) = Some addresses) by (by destruct addresses).
  destruct Hrun as [Hrej|l cached Hacc' Hhit|l p Hacc' _ Hsteps Hset];
    [congruence| |].
  { assert (l = addresses) as -> by congruence. congruence. }
  assert (l = addresses) as -> by congruence.
  assert (Hone : workerCount WORKERS addresses = 1).
  { unfold workerCount. destruct Hsmall as [->|Hlen]; [lia|].
    assert ((Z.of_nat (length addresses) + 1) / 2 < 2).
    { apply Z.div_lt_upper_bound; lia. }
    lia. }
  assert (Hstart : lone_worker_inv addresses (start WORKERS addresses)).
  { unfold start. rewrite Hone. exists AtLoop. split; [done|]. done. }
  destruct (lone_worker_steps addresses _ _ Hsteps Hstart) as (w & Hw & Hord).
  unfold settled in Hset. rewrite Hw in Hset.
  apply Forall_cons in Hset as [-> _].
  pose proof (settled_queue_empty WORKERS addresses p HW Hsteps) as Hq.
  rewrite Hq in Hord.
  - exists (results p). split; [done|]. simpl in Hord. by rewrite app_nil_r in Hord.
  - unfold settled. rewrite Hw. by repeat constructor.
Qed.

Lemma X19_single_worker_answers_in_reverse_witness :
  1 ≤ 5 ∧ (5 = 1 ∨ (length ["0xabc"] ≤ 2)%nat) ∧ ["0xabc"] ≠ [] ∧
  (∅ : gmap string (list entry)) !! cacheKey ["0xabc"] = None ∧
  ∃ rs, Json [silent_entry "0xabc"] = Json rs ∧ map address rs = rev ["0xabc"].
Proof.
  assert (Hsmall : 5 = 1 ∨ (length ["0xabc"] ≤ 2)%nat) by (right; simpl; lia).
  split; [lia|]. split; [exact Hsmall|]. split; [discriminate|]. split; [reflexivity|].
  apply (X19_single_worker_answers_in_reverse 5 ∅ ["0xabc"] _ _ _ ltac:(lia) Hsmall
           ltac:(discriminate) eq_refl one_address_run).
Defined.

(** ** No worker *)

Lemma step_no_worker q rs fs p' : ¬ step (Pool q [] rs fs) p'.
Proof. inversion 1; simplify_eq/=. Qed.

(** X20: with [WORKERS <= 0] no worker is started: a non-empty request
    that misses the cache is answered with the empty list, without any
    fetch, and the empty list is stored under the key of the request. *)
Theorem X20_no_worker_no_result WORKERS cache addresses :
  WORKERS ≤ 0 → addresses ≠ [] →
  cache !! cacheKey addresses = None →
  handler WORKERS cache (Array addresses) (Json [])
          (<[cacheKey addresses := []]> cache)
          [CacheGet (cacheKey addresses); CacheSet (cacheKey addresses) []] ∧
  ∀ resp cache' effects,
    handler WORKERS cache (Array addresses) resp cache' effects →
    resp = Json [] ∧
    cache' = <[cacheKey addresses := []]> cache ∧
    effects = [CacheGet (cacheKey addresses); CacheSet (cacheKey addresses) []].
Proof.
  intros HW Hne Hmiss.
  assert (Hacc : accepted (Array addresses) = Some addresses) by (by destruct addresses).
  assert (Hstart : start WORKERS addresses = Pool addresses [] [] []).
  { unfold start. replace (Z.to_nat (workerCount WORKERS addresses)) with 0%nat; [done|].
    unfold workerCount. lia. }
  split.
  - apply (handler_miss WORKERS cache (Array addresses) addresses
             (Pool addresses [] [] [])); [done|done| |].
    + by rewrite Hstart.
    + constructor.
  - intros resp cache' effects Hrun.
    destruct Hrun as [Hrej|l cached Hacc' Hhit|l p Hacc' _ Hsteps Hset];
      [congruence| |].
    { assert (l = addresses) as -> by congruence. congruence. }
    assert (l = addresses) as -> by congruence.
    rewrite Hstart in Hsteps.
    inversion Hsteps as [|? ? ? Hstep]; subst; [done|].
    by apply step_no_worker in Hstep.
Qed.

Lemma X20_no_worker_no_result_witness :
  0 ≤ 0 ∧ ["0xabc"] ≠ [] ∧
  (∅ : gmap string (list entry)) !! cacheKey ["0xabc"] = None ∧
  handler 0 ∅ (Array ["0xabc"]) (Json [])
          (<[cacheKey ["0xabc"] := []]> ∅)
          [CacheGet (cacheKey ["0xabc"]); CacheSet (cacheKey ["0xabc"]) []].
Proof.
  split; [lia|]. split; [discriminate|]. split; [reflexivity|].
  apply (X20_no_worker_no_result 0 ∅ ["0xabc"]); [lia|discriminate|reflexivity].
Defined.

(** ** Termination *)

Lemma nsteps_measure n p p' :
  nsteps step n p p' → (n + pool_measure p' ≤ pool_measure p)%nat.
Proof.
  induction 1 as [|n p p1 p' Hstep _ IH]; [lia|].
  pose proof (step_measure _ _ Hstep). lia.
Qed.

Lemma weight_replicate_AtLoop k : sum_list_with worker_weight (replicate k AtLoop) = k.
Proof. induction k as [|k IH]; simpl; [done|]. by rewrite IH. Qed.

(** X21: the address pool always comes to an end: a run from the start has
    at most [3 * n + w] turns, for [n] addresses and [w] workers, and a pool
    in which some worker has not returned can always take a turn, so every
    run can be continued until [Promise.all] resolves. *)
Theorem X21_pool_terminates WORKERS addresses n p :
  nsteps step n (start WORKERS addresses) p →
  (n ≤ 3 * length addresses + Z.to_nat (workerCount WORKERS addresses))%nat ∧
  (¬ settled p → ∃ p', step p p').
Proof.
  intros Hsteps. split; [|apply pool_progress].
  pose proof (nsteps_measure _ _ _ Hsteps) as Hm.
  assert (Hstart : pool_measure (start WORKERS addresses)
                   = (3 * length addresses
                      + Z.to_nat (workerCount WORKERS addresses))%nat).
  { unfold start, pool_measure. simpl queue. simpl workers.
    by rewrite weight_replicate_AtLoop. }
  lia.
Qed.

Lemma X21_pool_terminates_witness :
  nsteps step 0 (start 5 ["0xabc"]) (start 5 ["0xabc"]) ∧
  (0 ≤ 3 * length ["0xabc"] + Z.to_nat (workerCount 5 ["0xabc"]))%nat.
Proof.
  assert (Hrun : nsteps step 0 (start 5 ["0xabc"]) (start 5 ["0xabc"])) by constructor.
  split; [exact Hrun|].
  apply (X21_pool_terminates 5 ["0xabc"] 0 _ Hrun).
Defined.

(** ** The client *)

(** X22: what [detectTimezones] gets from the handler: for an [addresses]
    value that is not a list or is empty (the default argument) the call
    is rejected with "API HTTP 400"; for a non-empty list it resolves with
    the list of entries of the response. *)
Theorem X22_detectTimezones WORKERS cache body resp cache' effects :
  handler WORKERS cache body resp cache' effects →
  (accepted body = None → detectTimezones resp = Rejected "API HTTP 400") ∧
  (is_Some (accepted body) →
     ∃ rs, resp = Json rs ∧ detectTimezones resp = Resolved (Json rs)).
Proof.
  intros Hrun. split.
  - intros Hrej. destruct Hrun; [done|congruence..].
  - intros [l Hl]. destruct Hrun; [congruence|eauto..].
Qed.

Lemma X22_detectTimezones_witness :
  handler 5 ∅ (Array []) (Status400 "addresses array required") ∅ [] ∧
  detectTimezones (Status400 "addresses array required") = Rejected "API HTTP 400".
Proof.
  assert (Hrun : handler 5 ∅ (Array []) (Status400 "addresses array required") ∅ [])
    by (by apply handler_reject).
  split; [exact Hrun|].
  exact (proj1 (X22_detectTimezones 5 ∅ (Array []) _ _ _ Hrun) eq_refl).
Defined.

(** * The click log *)

Lemma findIndex_zone_Some label prevRows idx :
  findIndex_zone label prevRows = Some idx →
  ∃ r, prevRows !! idx = Some r ∧ zone r = label ∧
       Forall (λ x, zone x ≠ label) (take idx prevRows).
Proof.
  unfold findIndex_zone. intros Hfind.
  destruct (list_find _ prevRows) as [[i r]|] eqn:Hf; simplify_eq/=.
  apply list_find_Some in Hf as (Hi & Hr & Hbefore).
  exists r. split_and!; [done..|].
  apply Forall_lookup. intros j y Hj.
  apply lookup_take_Some in Hj as [Hj Hlt]. by eapply Hbefore.
Qed.

Lemma toggle_found now prevRows label ac sm src idx :
  findIndex_zone label prevRows = Some idx →
  toggleRowsLifo now prevRows label ac sm src
  = {| rows := take idx prevRows ++ drop (S idx) prevRows; toggledOff := true |}.
Proof.
  intros Hfind. unfold toggleRowsLifo. rewrite Hfind.
  destruct idx as [|idx]; [done|]. by rewrite Nat.add_1_r.
Qed.

(** X23: toggling a zone that has rows in the log removes exactly the
    most recent of them, the first one from the top, and keeps all other
    rows in their order; [toggledOff] is true. *)
Theorem X23_toggle_removes_the_most_recent_row now prevRows label ac sm src :
  (∃ r, r ∈ prevRows ∧ zone r = label) →
  ∃ above r below,
    prevRows = above ++ r :: below ∧
    zone r = label ∧
    Forall (λ x, zone x ≠ label) above ∧
    toggleRowsLifo now prevRows label ac sm src
    = {| rows := above ++ below; toggledOff := true |}.
Proof.
  intros (r0 & Hin & Hz).
  destruct (list_find_elem_of (λ r, zone r = label) prevRows r0 Hin Hz) as [[i r] Hf].
  assert (Hfind : findIndex_zone label prevRows = Some i).
  { unfold findIndex_zone. by rewrite Hf. }
  destruct (findIndex_zone_Some _ _ _ Hfind) as (r' & Hi & Hr & Habove).
  exists (take i prevRows), r', (drop (S i) prevRows).
  split_and!; [by rewrite take_drop_middle|done|done|by apply toggle_found].
Qed.

Lemma X23_toggle_removes_the_most_recent_row_witness :
  ∃ above r below,
    [ {| ts := "t1"; zone := "Europe/Berlin"; source := "tzbb";
         address_count := 0; sample := "" |} ] = above ++ r :: below ∧
    zone r = "Europe/Berlin".
Proof.
  destruct (X23_toggle_removes_the_most_recent_row "t2"
              [ {| ts := "t1"; zone := "Europe/Berlin"; source := "tzbb";
                   address_count := 0; sample := "" |} ]
              "Europe/Berlin" None None None)
    as (above & r & below & Heq & Hz & _).
  - eexists. split; [apply list_elem_of_here|reflexivity].
  - exists above, r, below. split; [exact Heq|exact Hz].
Defined.

(** X24: toggling a zone that has no row in the log puts a new row for it
    on top, with source "tzbb", count 0 and an empty sample where these are
    not given; toggling the same zone again gives back the log as it was. *)
Theorem X24_toggle_on_then_off now now' prevRows label ac sm src ac' sm' src' :
  Forall (λ r, zone r ≠ label) prevRows →
  let on := toggleRowsLifo now prevRows label ac sm src in
  on = {| rows := {| ts := now; zone := label; source := string_or src "tzbb";
                     address_count := default 0 ac;
                     sample := string_or sm "" |} :: prevRows;
          toggledOff := false |} ∧
  toggleRowsLifo now' (rows on) label ac' sm' src'
  = {| rows := prevRows; toggledOff := true |}.
Proof.
  intros Habsent on.
  assert (Hon : on = {| rows := {| ts := now; zone := label;
                                   source := string_or src "tzbb";
                                   address_count := default 0 ac;
                                   sample := string_or sm "" |} :: prevRows;
                        toggledOff := false |}).
  { unfold on, toggleRowsLifo, findIndex_zone.
    by rewrite (proj2 (list_find_None _ _) Habsent). }
  split; [exact Hon|]. rewrite Hon. simpl rows.
  unfold toggleRowsLifo, findIndex_zone. simpl.
  rewrite decide_True by done. simpl. by rewrite drop_0.
Qed.

Lemma X24_toggle_on_then_off_witness :
  Forall (λ r, zone r ≠ "Asia/Tokyo") [] ∧
  toggleRowsLifo "t2" (rows (toggleRowsLifo "t1" [] "Asia/Tokyo" None None None))
                 "Asia/Tokyo" None None None
  = {| rows := []; toggledOff := true |}.
Proof.
  assert (Habsent : Forall (λ r, zone r ≠ "Asia/Tokyo") []) by constructor.
  split; [exact Habsent|].
  apply (X24_toggle_on_then_off "t1" "t2" [] "Asia/Tokyo" None None None
           None None None Habsent).
Defined.

(** * The zone colours *)

Lemma pastel_hash_range h s : 0 ≤ h < 2 ^ 32 → 0 ≤ pastel_hash h s < 2 ^ 32.
Proof.
  revert h. induction s as [|c s IH]; intros h Hh; [done|].
  simpl. apply IH. unfold to_uint32. apply Z.mod_pos_bound. lia.
Qed.

Lemma pastel_hash_polynomial h s :
  pastel_hash (to_uint32 h) s = to_uint32 (polynomial h s).
Proof.
  revert h. induction s as [|c s IH]; intros h; [done|].
  simpl. rewrite <- IH. f_equal. unfold to_uint32.
  rewrite <- (Z.add_mod_idemp_l (h mod 2 ^ 32 * 31)) by lia.
  rewrite Z.mul_mod_idemp_l by lia.
  by rewrite Z.add_mod_idemp_l by lia.
Qed.

(** X25: the hash of a label, computed with a wrap to 32 bits at every
    character, is the polynomial in 31 of its character codes reduced modulo
    2^32 once; the hue derived from it lies in [[0, 360)], and the colour is
    the string "hsl(<hue> 85% 70%)". *)
Theorem X25_pastel_hue label :
  pastel_hash 0 label = polynomial 0 label mod 2 ^ 32 ∧
  pastel_hue label = (polynomial 0 label mod 2 ^ 32) mod 360 ∧
  0 ≤ pastel_hue label < 360 ∧
  pastelFromLabel label = "hsl(" +:+ String_of_Z (pastel_hue label) +:+ " 85% 70%)".
Proof.
  assert (Hpoly : pastel_hash 0 label = polynomial 0 label mod 2 ^ 32).
  { change 0 with (to_uint32 0) at 1. apply pastel_hash_polynomial. }
  pose proof (pastel_hash_range 0 label ltac:(lia)) as Hr.
  assert (Hhue : pastel_hue label = pastel_hash 0 label mod 360).
  { unfold pastel_hue. apply Z.rem_mod_nonneg; lia. }
  split_and!; [done|by rewrite Hhue, Hpoly| | |done].
  - rewrite Hhue. apply Z.mod_pos_bound. lia.
  - rewrite Hhue. apply Z.mod_pos_bound. lia.
Qed.

(** * The configured chain ids *)

Lemma trimStart_head s :
  trimStart s = EmptyString ∨ ∃ c t, trimStart s = String c t ∧ is_space c = false.
Proof.
  induction s as [|c s IH]; [by left|]. simpl.
  destruct (is_space c) eqn:Hc; [done|]. right. eauto.
Qed.

Lemma trimEnd_head c s :
  is_space c = false → ∃ t, trimEnd (String c s) = String c t.
Proof. intros Hc. simpl. rewrite Hc. destruct (trimEnd s); eauto. Qed.

Lemma trimEnd_idemp s : trimEnd (trimEnd s) = trimEnd s.
Proof.
  induction s as [|c s IH]; [done|]. simpl.
  destruct (trimEnd s) as [|c' t] eqn:Ht.
  - destruct (is_space c) eqn:Hc; [done|]. simpl. by rewrite Hc.
  - change (trimEnd (String c (String c' t)))
      with (match trimEnd (String c' t) with
            | EmptyString => if is_space c then EmptyString else String c EmptyString
            | t' => String c t'
            end).
    by rewrite IH.
Qed.

Lemma trim_idemp s : trim (trim s) = trim s.
Proof.
  unfold trim.
  destruct (trimStart_head s) as [->|(c & t & -> & Hc)]; [done|].
  destruct (trimEnd_head c t Hc) as [t' Ht'].
  rewrite Ht'. simpl trimStart. rewrite Hc. rewrite <- Ht'. apply trimEnd_idemp.
Qed.

Lemma all_chars_trimStart p s : all_chars p s = true → all_chars p (trimStart s) = true.
Proof.
  induction s as [|c s IH]; [done|]. simpl.
  intros [Hc Hs]%andb_true_iff. destruct (is_space c); [by apply IH|].
  simpl. by rewrite Hc, Hs.
Qed.

Lemma all_chars_trimEnd p s : all_chars p s = true → all_chars p (trimEnd s) = true.
Proof.
  induction s as [|c s IH]; [done|]. simpl.
  intros [Hc Hs]%andb_true_iff. specialize (IH Hs).
  destruct (trimEnd s) as [|c' t].
  - destruct (is_space c); [done|]. simpl. by rewrite Hc.
  - simpl in *. by rewrite Hc, IH.
Qed.

Lemma all_chars_trim p s : all_chars p s = true → all_chars p (trim s) = true.
Proof. intros Hs. by apply all_chars_trimEnd, all_chars_trimStart. Qed.

Lemma split_comma_pieces s : Forall (λ x, all_chars not_comma x = true) (split_comma s).
Proof.
  induction s as [|c s IH]; [by repeat constructor|]. simpl.
  destruct (Ascii.eqb c ",") eqn:Hc; [by constructor|].
  destruct (split_comma s) as [|piece pieces].
  - repeat constructor. simpl. unfold not_comma. by rewrite Hc.
  - apply Forall_cons in IH as [Hp Hps]. constructor; [|done].
    simpl. unfold not_comma at 1. by rewrite Hc, Hp.
Qed.

Lemma split_comma_single x :
  all_chars not_comma x = true → split_comma x = [x].
Proof.
  induction x as [|c x IH]; [done|]. simpl.
  intros [Hc Hx]%andb_true_iff. unfold not_comma in Hc.
  apply negb_true_iff in Hc. by rewrite Hc, IH.
Qed.

Lemma split_comma_app x s :
  all_chars not_comma x = true →
  split_comma (x +:+ String "," s) = x :: split_comma s.
Proof.
  induction x as [|c x IH]; [done|]. simpl.
  intros [Hc Hx]%andb_true_iff. unfold not_comma in Hc.
  apply negb_true_iff in Hc.
  change (String.append x (String "," s)) with (x +:+ String "," s).
  by rewrite Hc, IH.
Qed.

Lemma split_comma_concat ids :
  ids ≠ [] → Forall (λ x, all_chars not_comma x = true) ids →
  split_comma (String.concat "," ids) = ids.
Proof.
  intros Hne Hall. induction Hall as [|x ids Hx Hall IH]; [done|].
  destruct ids as [|y ids].
  - simpl. by apply split_comma_single.
  - change (String.concat "," (x :: y :: ids))
      with (x +:+ String "," (String.concat "," (y :: ids))).
    rewrite split_comma_app by done. f_equal. by apply IH.
Qed.

Lemma concat_nonempty x ids : x ≠ EmptyString → String.concat "," (x :: ids) ≠ EmptyString.
Proof. intros Hx. destruct x; [done|]. by destruct ids. Qed.

(** X26: every configured chain id is non-empty, has no comma and no white
    space around it, whatever the environment variable holds; an unset or
    empty variable gives the five default chains; and a list of such ids,
    joined with commas, is read back as it is. *)
Theorem X26_configured_chain_ids :
  (∀ env, Forall clean_id (SIM_CHAIN_IDS_of env)) ∧
  SIM_CHAIN_IDS_of None = ["1"; "137"; "8453"; "10"; "42161"] ∧
  SIM_CHAIN_IDS_of (Some "") = SIM_CHAIN_IDS_of None ∧
  (∀ ids, ids ≠ [] → Forall clean_id ids →
          SIM_CHAIN_IDS_of (Some (String.concat "," ids)) = ids).
Proof.
  split_and!; [|by vm_compute|done|].
  - intros env. unfold SIM_CHAIN_IDS_of, nonempty.
    apply Forall_forall. intros s [Hne Hin]%list_elem_of_filter.
    change (map trim) with (fmap (M:=list) trim) in Hin.
    apply list_elem_of_fmap in Hin as (piece & -> & Hpiece).
    split_and!; [done| |apply trim_idemp].
    apply all_chars_trim.
    pose proof (split_comma_pieces (string_or env "1,137,8453,10,42161")) as Hall.
    rewrite Forall_forall in Hall. by apply Hall.
  - intros ids Hne Hclean. unfold SIM_CHAIN_IDS_of.
    assert (Hjoin : string_or (Some (String.concat "," ids)) "1,137,8453,10,42161"
                    = String.concat "," ids).
    { destruct ids as [|x ids]; [done|].
      apply Forall_cons in Hclean as [(Hx & _) _].
      pose proof (concat_nonempty x ids Hx) as Hc.
      unfold string_or. by destruct (String.concat "," (x :: ids)). }
    rewrite Hjoin, split_comma_concat; [|done|].
    + clear Hjoin Hne. induction Hclean as [|x ids (Hx & _ & Ht) _ IH]; [done|].
      simpl map. unfold nonempty in *. rewrite filter_cons, Ht.
      rewrite decide_True by done. by rewrite IH.
    + eapply Forall_impl; [exact Hclean|]. by intros x (_ & Hx & _).
Qed.

Lemma X26_configured_chain_ids_witness :
  ["1"; "10"] ≠ [] ∧ Forall clean_id ["1"; "10"] ∧
  SIM_CHAIN_IDS_of (Some (String.concat "," ["1"; "10"])) = ["1"; "10"].
Proof.
  assert (Hclean : Forall clean_id ["1"; "10"]).
  { repeat constructor; discriminate. }
  split; [discriminate|]. split; [exact Hclean|].
  apply (proj2 (proj2 (proj2 X26_configured_chain_ids)) ["1"; "10"]);
    [discriminate|exact Hclean].
Defined.

(** * The address box *)

Lemma dedupe_spec seen parts :
  NoDup (dedupe seen parts) ∧
  ∀ x, x ∈ dedupe seen parts ↔ x ∈ parts ∧ x ∉ seen.
Proof.
  revert seen. induction parts as [|y parts IH]; intros seen.
  { split; [constructor|]. intros x. simpl. rewrite elem_of_nil. tauto. }
  simpl. destruct (decide (y ∈ seen)) as [Hy|Hy].
  - destruct (IH seen) as [Hnd Hin]. split; [done|].
    intros x. rewrite Hin, elem_of_cons. split; [tauto|].
    intros [[->|?] ?]; tauto.
  - destruct (IH (y :: seen)) as [Hnd Hin]. split.
    + constructor; [|done]. rewrite Hin, elem_of_cons. tauto.
    + intros x. rewrite !elem_of_cons, Hin, elem_of_cons.
      destruct (decide (x = y)) as [->|Hne]; tauto.
Qed.

Lemma dedupe_id seen parts :
  NoDup parts → (∀ x, x ∈ parts → x ∉ seen) → dedupe seen parts = parts.
Proof.
  intros Hnd. revert seen. induction Hnd as [|y parts Hy Hnd IH]; intros seen Hseen; [done|].
  simpl. rewrite decide_False by (apply Hseen, list_elem_of_here).
  f_equal. apply IH. intros x Hx. rewrite elem_of_cons.
  intros [->|Hin]; [done|]. by apply (Hseen x); [apply list_elem_of_further|].
Qed.

Lemma address_characters c :
  is_hex c || is_base58 c || Ascii.eqb c "x" = true → is_separator c = false.
Proof. by destruct c as [[] [] [] [] [] [] [] []]. Qed.

Lemma all_chars_impl (p q : ascii → bool) s :
  (∀ c, p c = true → q c = true) → all_chars p s = true → all_chars q s = true.
Proof.
  intros Hpq. induction s as [|c s IH]; [done|]. simpl.
  intros [Hc Hs]%andb_true_iff. by rewrite (Hpq c Hc), IH.
Qed.

Lemma valid_address_token a :
  valid_address a → a ≠ EmptyString ∧ all_chars not_separator a = true.
Proof.
  unfold valid_address. intros [Hevm|Hsol]%orb_true_iff.
  - unfold isEvm in Hevm.
    destruct a as [|c0 [|c1 digits]]; [done|by destruct c0 as [[] [] [] [] [] [] [] []]|].
    destruct (decide (c0 = "0"%char)) as [->|H0];
      [|by destruct c0 as [[] [] [] [] [] [] [] []]].
    destruct (decide (c1 = "x"%char)) as [->|H1];
      [|by destruct c1 as [[] [] [] [] [] [] [] []]].
    apply andb_true_iff in Hevm as [_ Hhex]. split; [done|].
    simpl. apply (all_chars_impl is_hex); [|done].
    intros c Hc. unfold not_separator. apply negb_true_iff, address_characters.
    by rewrite Hc.
  - unfold isSol in Hsol.
    apply andb_true_iff in Hsol as [[Hlo _]%andb_true_iff Hb58]. split.
    + intros ->. done.
    + apply (all_chars_impl is_base58); [|done].
      intros c Hc. unfold not_separator. apply negb_true_iff, address_characters.
      by rewrite Hc, orb_true_r.
Qed.

Lemma parseAddresses_results text :
  NoDup (parseAddresses text) ∧
  Forall (λ a, valid_address a ∧ a ≠ EmptyString ∧ all_chars not_separator a = true)
         (parseAddresses text).
Proof.
  unfold parseAddresses. split.
  - apply NoDup_filter, dedupe_spec.
  - apply Forall_forall. intros a [Hvalid _]%list_elem_of_filter.
    split; [done|]. by apply valid_address_token.
Qed.

(** X27: the addresses the box passes on are distinct, each is a valid EVM
    or Solana address by the two patterns, none is empty and none contains
    a separator; they are part of the pieces of the text. *)
Theorem X27_parseAddresses_results text :
  NoDup (parseAddresses text) ∧
  Forall (λ a, valid_address a ∧ a ≠ EmptyString ∧ all_chars not_separator a = true)
         (parseAddresses text) ∧
  (∀ a, a ∈ parseAddresses text →
        a ∈ map trim (split_runs is_separator false text)).
Proof.
  destruct (parseAddresses_results text) as [Hnd Hall].
  split_and!; [done..|].
  intros a. unfold parseAddresses, nonempty.
  intros [_ Hin]%list_elem_of_filter.
  apply dedupe_spec in Hin as [Hin _].
  by apply list_elem_of_filter in Hin as [_ Hin].
Qed.

(** ** Reading back a list of addresses *)

Lemma split_runs_flag sep b c s :
  sep c = false → split_runs sep b (String c s) = split_runs sep false (String c s).
Proof. intros Hc. simpl. by rewrite Hc. Qed.

Lemma split_runs_single sep b x :
  all_chars (λ c, negb (sep c)) x = true → x ≠ EmptyString ∨ b = false →
  split_runs sep b x = [x].
Proof.
  revert b. induction x as [|c x IH]; intros b Hx Hb; [done|].
  simpl in *. apply andb_true_iff in Hx as [Hc Hx].
  apply negb_true_iff in Hc. rewrite Hc.
  rewrite (IH false) by auto. done.
Qed.

Lemma split_runs_app sep x c s :
  all_chars (λ c, negb (sep c)) x = true → sep c = true →
  split_runs sep false (x +:+ String c s) = x :: split_runs sep true s.
Proof.
  intros Hx Hc. induction x as [|a x IH]; simpl.
  - by rewrite Hc.
  - simpl in Hx. apply andb_true_iff in Hx as [Ha Hx].
    apply negb_true_iff in Ha. rewrite Ha.
    change (String.append x (String c s)) with (x +:+ String c s).
    by rewrite IH.
Qed.

Lemma split_runs_concat sep c b tokens :
  sep c = true →
  Forall (λ x, x ≠ EmptyString ∧ all_chars (λ c, negb (sep c)) x = true) tokens →
  tokens ≠ [] →
  split_runs sep b (String.concat (String c EmptyString) tokens) = tokens.
Proof.
  intros Hc Hall. revert b.
  induction Hall as [|x tokens [Hx Hfree] Hall IH]; intros b Hne; [done|].
  destruct tokens as [|y tokens].
  - simpl. apply split_runs_single; auto.
  - change (String.concat (String c EmptyString) (x :: y :: tokens))
      with (x +:+ String c (String.concat (String c EmptyString) (y :: tokens))).
    destruct x as [|a x]; [done|].
    simpl in Hfree. apply andb_true_iff in Hfree as [Ha Hfree].
    change (String a x +:+ ?s) with (String a (x +:+ s)).
    rewrite split_runs_flag by (by apply negb_true_iff).
    change (String a (x +:+ ?s)) with (String a x +:+ s).
    rewrite split_runs_app; [|simpl; by rewrite Ha, Hfree|done].
    f_equal. by apply IH.
Qed.

Lemma trimEnd_no_space x :
  all_chars (λ c, negb (is_space c)) x = true → trimEnd x = x.
Proof.
  induction x as [|c x IH]; [done|]. simpl.
  intros [Hc Hx]%andb_true_iff. apply negb_true_iff in Hc.
  rewrite (IH Hx), Hc. by destruct x.
Qed.

Lemma trim_no_space x :
  all_chars (λ c, negb (is_space c)) x = true → trim x = x.
Proof.
  intros Hx. unfold trim.
  assert (trimStart x = x) as ->; [|by apply trimEnd_no_space].
  destruct x as [|c x]; [done|]. simpl in *.
  apply andb_true_iff in Hx as [Hc _]. apply negb_true_iff in Hc. by rewrite Hc.
Qed.

Lemma no_separator_no_space x :
  all_chars not_separator x = true → all_chars (λ c, negb (is_space c)) x = true.
Proof.
  apply all_chars_impl. intros c. unfold not_separator, is_separator.
  rewrite !negb_true_iff, !orb_false_iff. tauto.
Qed.

(** X28: a list of distinct valid addresses, written with one separator
    between them (a line feed, a comma, a space, ...), is read back by the
    box exactly as it is, in the same order; so parsing the rendering of a
    parsed list changes nothing. *)
Theorem X28_parseAddresses_reads_back c :
  is_separator c = true →
  (∀ addresses, NoDup addresses → Forall valid_address addresses →
     parseAddresses (String.concat (String c EmptyString) addresses) = addresses) ∧
  (∀ text, parseAddresses (String.concat (String c EmptyString) (parseAddresses text))
           = parseAddresses text).
Proof.
  intros Hc.
  assert (Hback : ∀ addresses, NoDup addresses → Forall valid_address addresses →
     parseAddresses (String.concat (String c EmptyString) addresses) = addresses).
  { intros addresses Hnd Hvalid.
    destruct (decide (addresses = [])) as [->|Hne]; [done|].
    assert (Htok : Forall (λ x, x ≠ EmptyString ∧
                            all_chars (λ c, negb (is_separator c)) x = true) addresses).
    { eapply Forall_impl; [exact Hvalid|]. intros a Ha. by apply valid_address_token. }
    unfold parseAddresses.
    rewrite (split_runs_concat is_separator c false addresses Hc Htok Hne).
    assert (Htrim : map trim addresses = addresses).
    { clear -Htok. induction Htok as [|x l [_ Hx] _ IH]; [done|]. simpl.
      rewrite IH. f_equal. by apply trim_no_space, no_separator_no_space. }
    assert (Hfull : nonempty addresses = addresses).
    { clear -Htok. unfold nonempty. induction Htok as [|x l [Hx _] _ IH]; [done|].
      by rewrite filter_cons, decide_True, IH. }
    rewrite Htrim, Hfull, dedupe_id; [|done|by intros x _ ?%elem_of_nil].
    clear -Hvalid. induction Hvalid as [|x l Hx _ IH]; [done|].
    by rewrite filter_cons, decide_True, IH. }
  split; [exact Hback|].
  intros text. destruct (parseAddresses_results text) as [Hnd Hall].
  apply Hback; [done|]. eapply Forall_impl; [exact Hall|]. by intros a [Ha _].
Qed.

Lemma X28_parseAddresses_reads_back_witness :
  is_separator (ascii_of_nat 10) = true ∧
  parseAddresses self_test_text
  = ["0x0000000000000000000000000000000000000000";
     "1BoatSLRHtKNngkdXEeobR76b53LETtpyT"] ∧
  parseAddresses (String.concat (String (ascii_of_nat 10) EmptyString)
                                (parseAddresses self_test_text))
  = parseAddresses self_test_text.
Proof.
  split; [reflexivity|]. split; [by vm_compute|].
  apply (proj2 (X28_parseAddresses_reads_back (ascii_of_nat 10) eq_refl) self_test_text).
Defined.

(** * The sanitizer of the zone polygons *)

Lemma filter_pushes_idemp features :
  List.filter pushes (List.filter pushes features) = List.filter pushes features.
Proof.
  induction features as [|f features IH]; [done|]. simpl.
  destruct (pushes f) eqn:Hf; [|done]. simpl. by rewrite Hf, IH.
Qed.

Lemma sanitize_Some fcIn out :
  sanitizeFeatureCollection fcIn = Some out →
  ∃ features,
    prop "features" (Some fcIn) = Some (JArray features) ∧
    List.filter pushes features ≠ [] ∧
    out = JObject [("type", JString "FeatureCollection");
                   ("features", JArray (List.filter pushes features))].
Proof.
  unfold sanitizeFeatureCollection.
  destruct (isFeatureCollection fcIn); [|done]. cbn [negb].
  destruct (prop "features" (Some fcIn)) as [[| | | |features|]|]; try done.
  destruct (List.filter pushes features) as [|f kept] eqn:Hk; [done|].
  intros [= <-]. exists features. by rewrite Hk.
Qed.

(** X29: when the sanitizer returns a collection, its features are
    exactly the features of the input that have a valid Polygon or
    MultiPolygon geometry, in their order, and there is at least one; every
    other property of the input collection is dropped; sanitizing the result
    again changes nothing. *)
Theorem X29_sanitizeFeatureCollection fcIn out :
  sanitizeFeatureCollection fcIn = Some out →
  (∃ features,
     prop "features" (Some fcIn) = Some (JArray features) ∧
     List.filter pushes features ≠ [] ∧
     out = JObject [("type", JString "FeatureCollection");
                    ("features", JArray (List.filter pushes features))]) ∧
  sanitizeFeatureCollection out = Some out.
Proof.
  intros Hout. destruct (sanitize_Some fcIn out Hout) as (features & Hf & Hne & ->).
  split; [by exists features|].
  unfold sanitizeFeatureCollection. simpl.
  rewrite filter_pushes_idemp.
  by destruct (List.filter pushes features).
Qed.

Lemma X29_sanitizeFeatureCollection_witness :
  sanitizeFeatureCollection FALLBACK_FC = Some FALLBACK_FC ∧
  sanitizeFeatureCollection FALLBACK_FC = Some FALLBACK_FC.
Proof.
  assert (Hfb : sanitizeFeatureCollection FALLBACK_FC = Some FALLBACK_FC)
    by (by vm_compute).
  split; [exact Hfb|].
  exact (proj2 (X29_sanitizeFeatureCollection FALLBACK_FC FALLBACK_FC Hfb)).
Defined.

(** X30: the sanitizer returns [null] exactly when the input is not a
    feature collection (no object with type "FeatureCollection" and an array
    of features) or none of its features has a valid geometry. *)
Theorem X30_sanitizeFeatureCollection_null fcIn :
  sanitizeFeatureCollection fcIn = None ↔
  isFeatureCollection fcIn = false ∨
  ∃ features, prop "features" (Some fcIn) = Some (JArray features) ∧
              Forall (λ f, pushes f = false) features.
Proof.
  unfold sanitizeFeatureCollection.
  destruct (isFeatureCollection fcIn) eqn:Hfc; cbn [negb]; [|by split; [left|]].
  unfold isFeatureCollection in Hfc. apply andb_true_iff in Hfc as [_ Hfeat].
  destruct (prop "features" (Some fcIn)) as [[| | | |features|]|]; try done.
  clear Hfeat. split.
  - intros Hnone. right. exists features. split; [done|].
    destruct (List.filter pushes features) as [|f kept] eqn:Hk; [|done].
    apply Forall_forall. intros f Hf%list_elem_of_In.
    destruct (pushes f) eqn:Hp; [|done].
    assert (Hin : In f (List.filter pushes features)) by (by apply filter_In).
    rewrite Hk in Hin. done.
  - intros [?|(features' & [= <-] & Hall)]; [done|].
    assert (Hk : List.filter pushes features = []).
    { clear -Hall. induction Hall as [|f l Hf _ IH]; [done|]. simpl. by rewrite Hf. }
    by rewrite Hk.
Qed.
